(** * SublimeLinter3 [commands.py]: navigation between lint errors and the
    quick panel of all errors.

    A shallow embedding of [GotoErrorCommand] ([goto_error],
    [select_lint_region], [find_mark_within]), of the [error_command]
    decorator and of [SublimelinterShowAllErrors.run], followed by the
    properties the specification states about them.

    Document offsets, line numbers and columns are Python integers ([Z]);
    a Python [str] is the list of its code points; a [dict] is a [gmap]. *)

From Stdlib Require Import ZArith List Sorted Permutation Ascii String DecimalString.
From stdpp Require Import base numbers list gmap sorting.

Open Scope Z_scope.

(** ** Python strings *)

Definition char := N.
Abbreviation str := (list char).

(** An ASCII literal of the source, as a [str]. *)
Definition lit (s : string) : str := map N_of_ascii (list_ascii_of_string s).

(** ** [sublime.Region] *)

Module Region.

(** Modelled from the spec: the class [Region] of the editor, which the
    plugin imports and does not define.  A region has a [begin] and an [end]
    with [begin <= end] and is empty when the two are equal; it contains a
    region [m] when [m.begin >= begin] and [m.end <= end], and a point that
    lies between its begin and its end.  The offsets [a] and [b] it is made
    from may come in either order. *)
Record t := make { a : Z; b : Z }.

#[global] Instance eq_dec : EqDecision t.
Proof. solve_decision. Defined.

Definition begin (r : t) : Z := if a r <? b r then a r else b r.
Definition end_ (r : t) : Z := if a r <? b r then b r else a r.
Definition empty (r : t) : bool := a r =? b r.

(** [Region.contains] dispatches on the type of its argument. *)
Definition contains_point (r : t) (x : Z) : bool :=
  (begin r <=? x) && (x <=? end_ r).
Definition contains (r x : t) : bool :=
  contains_point r (a x) && contains_point r (b x).

End Region.

Abbreviation Region := Region.t.

(** ** Python sequences *)

(** [sorted(l)] and [list.sort]: a stable sort that only asks [x < y].
    An element goes in front of the first one that is not smaller, so equal
    elements keep the order they had. *)
Section PySort.
Context {A : Type} (lt : A -> A -> bool).

Fixpoint insert_sorted (x : A) (l : list A) : list A :=
  match l with
  | [] => [x]
  | y :: l' => if lt y x then y :: insert_sorted x l' else x :: y :: l'
  end.

Definition py_sorted (l : list A) : list A := foldr insert_sorted [] l.
End PySort.

(** [l.sort(key=f)] for an integer key. *)
Definition sort_by_key {A : Type} (key : A -> Z) : list A -> list A :=
  py_sorted (fun x y => key x <? key y).

(** The slices [s[i:]] and [s[:i]]: a negative index counts from the end, and
    an index outside the sequence is clamped to it. *)
Definition slice_index {A : Type} (s : list A) (i : Z) : nat :=
  if i <? 0 then Z.to_nat (Z.max 0 (Z.of_nat (length s) + i))
  else Z.to_nat (Z.min i (Z.of_nat (length s))).
Definition slice_from {A : Type} (s : list A) (i : Z) : list A := drop (slice_index s i) s.
Definition slice_to {A : Type} (s : list A) (i : Z) : list A := take (slice_index s i) s.

(** ** Exceptions *)

Inductive exn := IndexError.

Inductive result (A : Type) :=
| Return (x : A)
| Raise (e : exn).
Arguments Return {A} x.
Arguments Raise {A} e.

(** ** [sublime.Selection]

    The selection of a view lives in the editor; [view.sel()] and
    [sublime.Selection(view.id())] are two handles on the same store, here
    the list of regions that iterating the handle yields. *)

Definition before (r1 r2 : Region) : Prop := Region.end_ r1 <= Region.begin r2.
Definition ordered (s : list Region) : Prop := StronglySorted before s.

(** Modelled from the spec: [Selection.add] is the editor's and is taken
    as a parameter, together with what the editor promises about it.  Adding
    to a cleared selection leaves the added region alone, and the selection
    is kept sorted and free of overlaps: the order of the regions that the
    specification assumes for the search, ascending by begin and, read
    backwards, descending by end. *)
Class Selection := {
  sel_add : Region -> list Region -> list Region;
  sel_add_nil : forall r, sel_add r [] = [r];
  sel_add_ordered : forall r s, ordered s -> ordered (sel_add r s)
}.

(** [Selection.add_all]: [for r in regions: self.add(r)]. *)
Definition sel_add_all `{Selection} (regions : list Region) (s : list Region) : list Region :=
  fold_left (fun s r => sel_add r s) regions s.

(** ** The view and the plugin's persistent state *)

Definition message : Type := Z * str.          (* (column, text) *)
Abbreviation ErrorMap := (gmap Z (list message)). (* line -> messages *)

Record View := {
  view_id : Z;
  sel : list Region;              (* the selection store of the view *)
  warning_marks : list Region;    (* get_regions(MARK_KEY_FORMAT.format(WARNING)) *)
  error_marks : list Region;      (* get_regions(MARK_KEY_FORMAT.format(ERROR)) *)
  full_line : Z -> str;           (* substr(full_line(text_point(lineno, 0))) *)
  centered : list Region;         (* calls of show_at_center, oldest first *)
  dialogs : list str              (* calls of sublime.message_dialog, oldest first *)
}.

Definition set_sel (s : list Region) (v : View) : View :=
  {| view_id := view_id v; sel := s; warning_marks := warning_marks v;
     error_marks := error_marks v; full_line := full_line v;
     centered := centered v; dialogs := dialogs v |}.

Definition show_at_center (r : Region) (v : View) : View :=
  {| view_id := view_id v; sel := sel v; warning_marks := warning_marks v;
     error_marks := error_marks v; full_line := full_line v;
     centered := centered v ++ [r]; dialogs := dialogs v |}.

Definition message_dialog (msg : str) (v : View) : View :=
  {| view_id := view_id v; sel := sel v; warning_marks := warning_marks v;
     error_marks := error_marks v; full_line := full_line v;
     centered := centered v; dialogs := dialogs v ++ [msg] |}.

Record Persist := {
  errors : gmap Z ErrorMap;       (* persist.errors: view id -> ErrorMap *)
  wrap_find : option bool         (* the 'wrap_find' entry of persist.settings *)
}.

(** [persist.settings.get('wrap_find', True)]. *)
Definition get_wrap_find (p : Persist) : bool := default true (wrap_find p).

(** ** [GotoErrorCommand] *)

Section GotoError.
Context `{Selection}.

Definition find_mark_within (v : View) (region : Region) : option Region :=
  let marks := warning_marks v ++ error_marks v in
  let marks := sort_by_key Region.begin marks in
  List.find (fun mark => Region.contains region mark) marks.

Definition select_lint_region (v : View) (region : Region) : View :=
  let v := set_sel [] v in
  let marked_region :=
    match find_mark_within v region with
    | Some mark => mark
    | None => Region.make (Region.begin region) (Region.begin region)
    end in
  let v := set_sel (sel_add marked_region (sel v)) v in
  show_at_center marked_region v.

Definition is_next (direction : str) : bool := bool_decide (direction = lit "next").

(** The tests of the two loops. *)
Definition next_match (point : Z) (empty_selection : bool) (region : Region) : bool :=
  ((point =? Region.begin region) && empty_selection && negb (Region.empty region))
  || (point <? Region.begin region).

Definition previous_match (point : Z) (empty_selection : bool) (region : Region) : bool :=
  ((point =? Region.end_ region) && empty_selection && negb (Region.empty region))
  || (point >? Region.end_ region).

(** [empty_selection = len(sel) == 1 and sel[0].empty()]. *)
Definition empty_selection_of (s : list Region) : bool :=
  match s with
  | [r] => Region.empty r
  | _ => false
  end.

(** The point the search starts from; [sel[0]] and [sel[-1]] raise on an
    empty selection. *)
Definition anchor (point : option Z) (direction : str) (s : list Region) : result Z :=
  match point with
  | Some p => Return p
  | None =>
      if is_next direction
      then match s !! 0%nat with
           | Some r => Return (Region.begin r)
           | None => Raise IndexError
           end
      else match last s with
           | Some r => Return (Region.end_ r)
           | None => Raise IndexError
           end
  end.

(** The regions the search runs over: the selection store after
    [regions.clear()] and the two [add_all]. *)
Definition goto_regions (v : View) : list Region :=
  sel_add_all (error_marks v) (sel_add_all (warning_marks v) []).

(** The two [for] loops with their [break]. *)
Definition scan (direction : str) (point : Z) (empty_selection : bool)
    (regions : list Region) : option Region :=
  if is_next direction
  then List.find (next_match point empty_selection) regions
  else List.find (previous_match point empty_selection) (reverse regions).

(** [len(regions) > 1 or not regions[0].contains(point)]. *)
Definition may_wrap (regions : list Region) (point : Z) : result bool :=
  if (1 <? Z.of_nat (length regions)) then Return true
  else match regions !! 0%nat with
       | Some r => Return (negb (Region.contains_point r point))
       | None => Raise IndexError
       end.

(** [if len(sel) == 0: sel.add(sublime.Region(0, 0))]. *)
Definition ensure_selection (v : View) : View :=
  if bool_decide (length (sel v) = 0%nat)
  then set_sel (sel_add (Region.make 0 0) (sel v)) v else v.

(** The last [else]: the saved selection is put back and the user is told. *)
Definition report_no_more (saved_sel : list Region) (direction : str) (v : View) : View :=
  let v := set_sel [] v in
  let v := set_sel (sel_add_all saved_sel (sel v)) v in
  message_dialog (lit "No " ++ direction ++ lit " lint error.") v.

Definition goto_error (p : Persist) (v : View) (point : option Z) (direction : str)
    : View * result (option Region) :=
  let v := ensure_selection v in
  let saved_sel := sel v in
  let empty_selection := empty_selection_of (sel v) in
  match anchor point direction (sel v) with
  | Raise e => (v, Raise e)
  | Return point =>
      let v := set_sel (goto_regions v) v in
      let regions := sel v in
      let region_to_select := scan direction point empty_selection regions in
      let wrapped : result (option Region) :=
        match region_to_select with
        | Some r => Return (Some r)
        | None =>
            match may_wrap regions point with
            | Raise e => Raise e
            | Return false => Return None
            | Return true =>
                if get_wrap_find p
                then if is_next direction
                     then match regions !! 0%nat with
                          | Some r => Return (Some r)
                          | None => Raise IndexError
                          end
                     else match last regions with
                          | Some r => Return (Some r)
                          | None => Raise IndexError
                          end
                else Return None
            end
        end in
      match wrapped with
      | Raise e => (v, Raise e)
      | Return (Some r) => (select_lint_region v r, Return (Some r))
      | Return None => (report_no_more saved_sel direction v, Return None)
      end
  end.

End GotoError.

(** ** The [error_command] decorator and [HasErrorsCommand] *)

(** [vid in persist.errors and persist.errors[vid]]: the entry exists and the
    dict it holds is not empty. *)
Definition has_errors (p : Persist) (vid : Z) : option ErrorMap :=
  match errors p !! vid with
  | Some errs => if bool_decide (errs = ∅) then None else Some errs
  | None => None
  end.

(** [HasErrorsCommand.is_enabled]. *)
Definition is_enabled (p : Persist) (v : View) : bool :=
  match errors p !! view_id v with
  | Some errs => bool_decide (0 < size errs)%nat
  | None => false
  end.

(** [error_command(f)], for a command body [f] that gets the view and its
    errors. *)
Definition error_command {A : Type} (f : View -> ErrorMap -> View * result A)
    (p : Persist) (v : View) : View * result (option A) :=
  match has_errors p (view_id v) with
  | Some errs =>
      match f v errs with
      | (v', Return x) => (v', Return (Some x))
      | (v', Raise e) => (v', Raise e)
      end
  | None => (message_dialog (lit "No lint errors.") v, Return None)
  end.

(** [SublimelinterGotoErrorCommand.run]. *)
Definition goto_error_command `{Selection} (p : Persist) (v : View)
    (point : option Z) (direction : str) : View * result (option (option Region)) :=
  error_command (fun v _ => goto_error p v point direction) p v.

(** ** [SublimelinterShowAllErrors.run] *)

(** Python's [<] on tuples and lists: the first pair of items that differ
    decides; a proper prefix is smaller. *)
Definition tuple_lt {A B : Type} `{EqDecision A} (ltA : A -> A -> bool)
    (ltB : B -> B -> bool) (x y : A * B) : bool :=
  if bool_decide (x.1 = y.1) then ltB x.2 y.2 else ltA x.1 y.1.

Fixpoint list_lt {A : Type} `{EqDecision A} (ltA : A -> A -> bool)
    (l1 l2 : list A) : bool :=
  match l1, l2 with
  | [], [] => false
  | [], _ :: _ => true
  | _ :: _, [] => false
  | x :: l1', y :: l2' => if bool_decide (x = y) then list_lt ltA l1' l2' else ltA x y
  end.

Definition str_lt : str -> str -> bool := list_lt N.ltb.
Definition message_lt : message -> message -> bool := tuple_lt Z.ltb str_lt.
Definition item_lt : Z * list message -> Z * list message -> bool :=
  tuple_lt Z.ltb (list_lt message_lt).

(** [s.rstrip(chars)] and [s.lstrip()]. *)
Fixpoint lstrip_chars (strip : char -> bool) (s : str) : str :=
  match s with
  | [] => []
  | c :: s' => if strip c then lstrip_chars strip s' else s
  end.

Definition rstrip_chars (strip : char -> bool) (s : str) : str :=
  reverse (lstrip_chars strip (reverse s)).

(** The characters [str.isspace] accepts. *)
Definition is_space (c : char) : bool :=
  ((9 <=? c) && (c <=? 13) || (28 <=? c) && (c <=? 32)
   || (c =? 133) || (c =? 160) || (c =? 5760)
   || (8192 <=? c) && (c <=? 8202)
   || (c =? 8232) || (c =? 8233) || (c =? 8239) || (c =? 8287) || (c =? 12288))%N.

Definition is_newline (c : char) : bool := ((c =? 10) || (c =? 13))%N.

Definition lstrip : str -> str := lstrip_chars is_space.

(** [str(n)] for an integer. *)
Definition str_of_int (n : Z) : str := lit (NilZero.string_of_int (Z.to_int n)).

Definition arrow : char := 10140%N.   (* U+279C, the arrow of the source *)
Definition max_prefix_len : Z := 40.

(** The body of the inner loop after [error_info.append]: the line of the
    quick panel for one message, from the stripped line and [diff]. *)
Definition visible (line : str) (column : Z) : str * Z :=
  if column >? max_prefix_len
  then (lit "..." ++ slice_from line (column - max_prefix_len), max_prefix_len + 3)
  else (line, column).

Definition code_line (line : str) (diff : Z) (message : message) : str :=
  let column := message.1 in
  let column := column - diff in
  let '(visible_line, column) := visible line column in
  slice_to visible_line column ++ [arrow] ++ slice_from visible_line column.

(** The text of line [lineno] without its line end, stripped on the left,
    and how much was stripped. *)
Definition stripped_line (v : View) (lineno : Z) : str * Z :=
  let line := rstrip_chars is_newline (full_line v lineno) in
  let diff := Z.of_nat (length line) in
  let line := lstrip line in
  let diff := diff - Z.of_nat (length line) in
  (line, diff).

(** The pairs [(lineno, message)] in the order the two loops visit them:
    the inner loop for one item of [errors.items()], and the outer loop over
    the sorted items. *)
Definition visited_line (item : Z * list message) : list (Z * message) :=
  let '(lineno, messages) := item in map (pair lineno) (py_sorted message_lt messages).

Definition visited (items : list (Z * list message)) : list (Z * message) :=
  flat_map visited_line (py_sorted item_lt items).

Definition error_info_of (e : Z * message) : Z * Z := (e.1, e.2.1).

Definition option_of (v : View) (e : Z * message) : str * str :=
  let '(lineno, message) := e in
  let '(line, diff) := stripped_line v lineno in
  (str_of_int (lineno + 1) ++ lit "  " ++ message.2, code_line line diff message).

(** What [run] leaves in [self.error_info] and hands to [show_quick_panel]. *)
Definition show_all_errors_items (v : View) (items : list (Z * list message))
    : list (Z * Z) * list (str * str) :=
  (map error_info_of (visited items), map (option_of v) (visited items)).

Definition show_all_errors (v : View) (errs : ErrorMap) : list (Z * Z) * list (str * str) :=
  show_all_errors_items v (map_to_list errs).

(** ** An editor selection that merges what touches

    One [add] that meets the promises of [Selection]: the regions are kept
    in order, and a region that meets others is merged with them. *)

Definition cover (r x : Region) : Region :=
  let lo := Z.min (Region.begin r) (Region.begin x) in
  let hi := Z.max (Region.end_ r) (Region.end_ x) in
  if Region.a r <? Region.b r then Region.make lo hi else Region.make hi lo.

Fixpoint merge_add (r : Region) (s : list Region) : list Region :=
  match s with
  | [] => [r]
  | x :: s' =>
      if Region.end_ r <? Region.begin x then r :: x :: s'
      else if Region.end_ x <? Region.begin r then x :: merge_add r s'
      else merge_add (cover r x) s'
  end.

(** Two ranges that lie apart; a selection of such ranges is one the merging
    selection reproduces when they are added back. *)
Definition apart (r1 r2 : Region) : Prop := Region.end_ r1 < Region.begin r2.

(** ** What the specification says, in its own words *)

Definition within (region m : Region) : Prop :=
  Region.begin region <= Region.begin m /\ Region.end_ m <= Region.end_ region.

Definition inside (region : Region) (point : Z) : Prop :=
  Region.begin region <= point <= Region.end_ region.

(** The selection is a single empty range. *)
Definition single_empty (s : list Region) : Prop :=
  exists c, s = [c] /\ Region.begin c = Region.end_ c.

Definition non_empty (r : Region) : Prop := Region.begin r <> Region.end_ r.

Definition next_eligible (point : Z) (s : list Region) (r : Region) : Prop :=
  (point = Region.begin r /\ single_empty s /\ non_empty r) \/ point < Region.begin r.

Definition previous_eligible (point : Z) (s : list Region) (r : Region) : Prop :=
  (point = Region.end_ r /\ single_empty s /\ non_empty r) \/ point > Region.end_ r.

Definition eligible (direction : str) : Z -> list Region -> Region -> Prop :=
  if bool_decide (direction = lit "next") then next_eligible else previous_eligible.

(** The glyph put in front of position [k] of [s]. *)
Definition splice_at (k : nat) (s : str) : str := take k s ++ [arrow] ++ drop k s.

(** The order of the rows: line, then column, then message text. *)
Definition str_le (s1 s2 : str) : Prop := str_lt s2 s1 = false.

Definition row_le (e1 e2 : Z * message) : Prop :=
  e1.1 < e2.1 \/
  (e1.1 = e2.1 /\ (e1.2.1 < e2.2.1 \/ (e1.2.1 = e2.2.1 /\ str_le e1.2.2 e2.2.2))).

(** The anchor as the specification words it; the selection is not empty
    when it is read, so the final [0] is never used. *)
Definition anchor_next (point : option Z) (s : list Region) : Z :=
  default (default 0 (Region.begin <$> head s)) point.

Definition anchor_previous (point : option Z) (s : list Region) : Z :=
  default (default 0 (Region.end_ <$> last s)) point.

Definition anchor_of (point : option Z) (direction : str) (s : list Region) : Z :=
  if bool_decide (direction = lit "next") then anchor_next point s
  else anchor_previous point s.

(** [x] may stand in front of [y] in a sorted sequence: [y < x] is false. *)
Definition not_after {A : Type} (lt : A -> A -> bool) (x y : A) : Prop := lt y x = false.

(** What makes [<] an order that sorts in one way only. *)
Record strict_total {A : Type} (lt : A -> A -> bool) : Prop := {
  st_irrefl : forall x, lt x x = false;
  st_trans : forall x y z, lt x y = true -> lt y z = true -> lt x z = true;
  st_total : forall x y, lt x y = false -> lt y x = false -> x = y
}.

(** ** Views to try the commands on *)

Definition demo_view (s : list Region) : View :=
  {| view_id := 7; sel := s;
     warning_marks := [Region.make 10 15];
     error_marks := [Region.make 2 6; Region.make 20 22];
     full_line := fun _ => [];
     centered := []; dialogs := [] |}.

Definition demo_persist (wrap : bool) : Persist :=
  {| errors := {[ 7 := {[ 0 := [(2, lit "unused import")] ]} ]};
     wrap_find := Some wrap |}.

Definition single_view (s : list Region) : View :=
  {| view_id := 7; sel := s;
     warning_marks := [];
     error_marks := [Region.make 20 30];
     full_line := fun _ => [];
     centered := []; dialogs := [] |}.

(** A view without ranges in its selection, with a mark at the start of the
    text. *)
Definition origin_view : View :=
  {| view_id := 7; sel := [];
     warning_marks := [];
     error_marks := [Region.make 0 3; Region.make 8 9];
     full_line := fun _ => [];
     centered := []; dialogs := [] |}.

Definition bare_view : View :=
  {| view_id := 7; sel := [Region.make 4 4];
     warning_marks := []; error_marks := [];
     full_line := fun _ => [];
     centered := []; dialogs := [] |}.

(** ** [SublimelinterShowAllErrors.select_error] *)

(** [l[i]]: a negative index counts from the end, and an index outside the
    list raises. *)
Definition py_index {A : Type} (l : list A) (i : Z) : result A :=
  let j := if i <? 0 then Z.of_nat (length l) + i else i in
  if j <? 0 then Raise IndexError
  else match l !! Z.to_nat j with
       | Some x => Return x
       | None => Raise IndexError
       end.

(** The callback of the quick panel.  [text_point] is the view's
    [text_point(row, col)], [error_info] what [run] left in
    [self.error_info]. *)
Definition select_error `{Selection} (text_point : Z -> Z -> Z) (p : Persist) (v : View)
    (error_info : list (Z * Z)) (index : Z) : View * result unit :=
  if bool_decide (index <> -1)
  then
    let v := set_sel [] v in
    match py_index error_info index with
    | Raise e => (v, Raise e)
    | Return (row, col) =>
        let point := text_point row col in
        match goto_error p v (Some point) (lit "next") with
        | (v, Return _) => (v, Return tt)
        | (v, Raise e) => (v, Raise e)
        end
    end
  else (v, Return tt).

(** ** [ChooseSettingCommand] *)

(** An item of [get_settings()]: a name, or a tuple or list that starts
    with the name. *)
Inductive setting_item :=
| Name (s : str)
| Items (l : list str).

Inductive setting_exn := SettingIndexError | SettingAttributeError.

Inductive outcome (A : Type) :=
| Done (x : A)
| Failed (e : setting_exn).
Arguments Done {A} x.
Arguments Failed {A} e.

(** What a command does to its surroundings, in the order it does it. *)
Inductive event :=
| ShowQuickPanel (items : list setting_item) (selected_index : Z)
| ChangeSetting (setting value : str)
| SettingWasChanged (value : str)
| UpdateUserSettings.

Section ChooseSetting.
(** [str.lower]; [key] is [self.setting], [old_setting] is
    [persist.settings.get(self.setting)], a string when there is one, and
    [settings] is [self.get_settings()]. *)
Context (lower : str -> str) (key : str) (old_setting : option str)
  (settings : list setting_item).

(** [s[0]] for a tuple or list, [s] for a string. *)
Definition item_name (s : setting_item) : outcome str :=
  match s with
  | Name n => Done n
  | Items (n :: _) => Done n
  | Items [] => Failed SettingIndexError
  end.

(** The loop of [choose]: the index of the first item whose name, in lower
    case, is [setting]. *)
Fixpoint find_setting (setting : str) (i : Z) (l : list setting_item) : outcome (option Z) :=
  match l with
  | [] => Done None
  | s :: l' =>
      match item_name s with
      | Failed e => Failed e
      | Done n => if bool_decide (lower n = setting) then Done (Some i)
                  else find_setting setting (i + 1) l'
      end
  end.

Definition set_setting (index : Z) : outcome (list event) :=
  if bool_decide (index = -1) then Done []
  else
    match py_index settings index with
    | Raise _ => Failed SettingIndexError
    | Return item =>
        match item_name item with
        | Failed e => Failed e
        | Done name =>
            let setting := lower name in
            if bool_decide (Some setting = old_setting) then Done []
            else Done [ChangeSetting key setting; SettingWasChanged setting;
                       UpdateUserSettings]
        end
    end.

(** [value] is [args['value']] when ['value' in args]. *)
Definition choose (value : option str) : outcome (list event) :=
  let setting :=
    match value with
    | Some x => Done (lower x)
    | None => match old_setting with
              | Some o => Done (lower o)
              | None => Failed SettingAttributeError
              end
    end in
  match setting with
  | Failed e => Failed e
  | Done setting =>
      match find_setting setting 0 settings with
      | Failed e => Failed e
      | Done found =>
          let index := default 0 found in
          match value with
          | Some _ => set_setting index
          | None => Done [ShowQuickPanel settings index]
          end
      end
  end.

End ChooseSetting.

(** ** [SublimelinterReportCommand.report] *)

Record Linter := {
  linter_filename : option str;   (* [linter.filename], [None] when unset *)
  linter_errors : ErrorMap        (* [linter.errors]; empty when there are none *)
}.

(** ['  {}: {}\n'.format(line, error)]. *)
Definition report_line (e : Z * message) : str :=
  lit "  " ++ str_of_int e.1 ++ lit ": " ++ e.2.2 ++ [10%N].

(** The pairs [(line, (col, error))] in the order the loops over one linter
    visit them; [items] is [linter.errors.items()]. *)
Definition reported_line (item : Z * list message) : list (Z * message) :=
  let '(line, errors) := item in map (pair line) errors.

Definition reported (items : list (Z * list message)) : list (Z * message) :=
  flat_map reported_line (py_sorted item_lt items).

(** The text [insert] adds to the output view, if it adds any; [basename] is
    [os.path.basename]. *)
Definition insert_text (basename : str -> str) (linters : list Linter) : option str :=
  if existsb (fun l => negb (bool_decide (linter_errors l = ∅))) linters
  then
    match linters with
    | [] => None
    | first :: _ =>
        let filename :=
          basename (match linter_filename first with
                    | Some f => if bool_decide (f = []) then lit "untitled" else f
                    | None => lit "untitled"
                    end) in
        let out := [10%N] ++ filename ++ lit ":" ++ [10%N] in
        Some (fold_left
                (fun out linter =>
                   if bool_decide (linter_errors linter = ∅) then out
                   else fold_left (fun out e => out ++ report_line e)
                          (reported (map_to_list (linter_errors linter))) out)
                linters out)
    end
  else None.

(** ** What the further properties speak of *)

(** No item of [l] goes by the name [setting]. *)
Definition unlisted (lower : str -> str) (setting : str) (l : list setting_item) : Prop :=
  Forall (fun s => exists n, item_name s = Done n /\ lower n <> setting) l.

(** What [set] does for a name it is to write: nothing when it is the
    setting already. *)
Definition written (key : str) (old_setting : option str) (value : str) : list event :=
  if bool_decide (Some value = old_setting) then []
  else [ChangeSetting key value; SettingWasChanged value; UpdateUserSettings].

(** * Properties *)

(** ** Regions *)

Ltac region_cases :=
  unfold within, inside, non_empty, before, Region.contains, Region.contains_point,
    Region.empty, Region.begin, Region.end_ in *; simpl in *;
  repeat match goal with
         | |- context [?x <? ?y] => destruct (Z.ltb_spec x y)
         | H : context [?x <? ?y] |- _ => destruct (Z.ltb_spec x y)
         end.

Lemma begin_le_end (r : Region) : Region.begin r <= Region.end_ r.
Proof. region_cases; lia. Qed.

Lemma empty_true (r : Region) : Region.empty r = true <-> Region.begin r = Region.end_ r.
Proof. unfold Region.empty. rewrite Z.eqb_eq. region_cases; lia. Qed.

Lemma empty_false (r : Region) : Region.empty r = false <-> non_empty r.
Proof. unfold Region.empty. rewrite Z.eqb_neq. region_cases; lia. Qed.

Lemma contains_point_inside (r : Region) (x : Z) :
  Region.contains_point r x = true <-> inside r x.
Proof.
  unfold Region.contains_point, inside.
  rewrite andb_true_iff, !Z.leb_le. tauto.
Qed.

Lemma contains_within (region m : Region) :
  Region.contains region m = true <-> within region m.
Proof.
  unfold Region.contains. rewrite andb_true_iff, !contains_point_inside.
  unfold inside, within.
  generalize (Region.begin region) (Region.end_ region). intros lo hi.
  unfold Region.begin, Region.end_. destruct (Z.ltb_spec (Region.a m) (Region.b m)); lia.
Qed.

(** ** The merging selection meets the editor's promises *)

Lemma cover_begin (r x : Region) :
  Region.begin (cover r x) = Z.min (Region.begin r) (Region.begin x).
Proof.
  pose proof (begin_le_end r). pose proof (begin_le_end x).
  unfold cover. destruct (Region.a r <? Region.b r); unfold Region.begin at 1; simpl.
  - destruct (Z.ltb_spec (Z.min (Region.begin r) (Region.begin x))
                         (Z.max (Region.end_ r) (Region.end_ x))); lia.
  - destruct (Z.ltb_spec (Z.max (Region.end_ r) (Region.end_ x))
                         (Z.min (Region.begin r) (Region.begin x))); lia.
Qed.

Lemma merge_add_lower (lo : Z) (s : list Region) : forall r,
  lo <= Region.begin r ->
  Forall (fun y => lo <= Region.begin y) s ->
  Forall (fun y => lo <= Region.begin y) (merge_add r s).
Proof.
  induction s as [|x s IH]; intros r Hr Hs; simpl.
  - by constructor.
  - inversion Hs as [|? ? Hx Hs']; subst.
    destruct (Region.end_ r <? Region.begin x).
    + by constructor.
    + destruct (Region.end_ x <? Region.begin r).
      * constructor; [done|]. by apply IH.
      * apply IH; [|done]. rewrite cover_begin. lia.
Qed.

Lemma merge_add_ordered (r : Region) (s : list Region) :
  ordered s -> ordered (merge_add r s).
Proof.
  unfold ordered. revert r.
  induction s as [|x s IH]; intros r Hs; simpl.
  - repeat constructor.
  - apply StronglySorted_inv in Hs as [Hs Hx].
    destruct (Z.ltb_spec (Region.end_ r) (Region.begin x)) as [Hlt|Hge].
    + constructor; [by constructor|].
      constructor; [unfold before; lia|].
      eapply Forall_impl; [exact Hx|]. unfold before. intros y Hy.
      pose proof (begin_le_end x). lia.
    + destruct (Z.ltb_spec (Region.end_ x) (Region.begin r)) as [Hlt'|Hge'].
      * constructor; [by apply IH|].
        apply (merge_add_lower (Region.end_ x)); [lia|exact Hx].
      * by apply IH.
Qed.

Definition merging_selection : Selection :=
  {| sel_add := merge_add;
     sel_add_nil := fun r => eq_refl;
     sel_add_ordered := merge_add_ordered |}.

Lemma merge_add_behind (r : Region) (s : list Region) :
  Forall (fun x => apart x r) s -> merge_add r s = s ++ [r].
Proof.
  induction 1 as [|x s Hx _ IH]; simpl; [done|].
  unfold apart in Hx. pose proof (begin_le_end x). pose proof (begin_le_end r).
  destruct (Z.ltb_spec (Region.end_ r) (Region.begin x)); [lia|].
  destruct (Z.ltb_spec (Region.end_ x) (Region.begin r)); [|lia].
  by rewrite IH.
Qed.

Lemma merging_selection_reproduces (s : list Region) :
  StronglySorted apart s -> sel_add_all (H := merging_selection) s [] = s.
Proof.
  intros Hs.
  assert (forall acc, StronglySorted apart (acc ++ s) ->
            sel_add_all (H := merging_selection) s acc = acc ++ s) as Hgen.
  { clear Hs. unfold sel_add_all. induction s as [|r s IH]; intros acc Hsorted; simpl.
    - by rewrite app_nil_r.
    - rewrite merge_add_behind.
      + rewrite IH; rewrite <- app_assoc; done.
      + apply StronglySorted_app in Hsorted as (Hcross & _ & _).
        apply Forall_forall. intros x Hx. apply Hcross; [done|left]. }
  by apply (Hgen []).
Qed.

(** ** Facts about the search *)

Lemma find_first {A : Type} (f : A -> bool) (l : list A) (r : A) :
  List.find f l = Some r ->
  exists pre post, l = pre ++ r :: post /\ f r = true /\ Forall (fun y => f y = false) pre.
Proof.
  induction l as [|y l IH]; simpl; [discriminate|].
  destruct (f y) eqn:Hy.
  - intros [= ->]. exists [], l. by repeat split.
  - intros Hfind. destruct (IH Hfind) as (pre & post & -> & Hr & Hpre).
    exists (y :: pre), post. repeat split; [done|]. by constructor.
Qed.

Lemma find_is_Some {A : Type} (f : A -> bool) (l : list A) (x : A) :
  x ∈ l -> f x = true -> is_Some (List.find f l).
Proof.
  induction 1 as [x l|x y l _ IH]; simpl; intros Hx.
  - rewrite Hx. by eexists.
  - destruct (f y); [by eexists|]. by apply IH.
Qed.

Lemma find_None {A : Type} (f : A -> bool) (l : list A) :
  (forall x, x ∈ l -> f x = false) -> List.find f l = None.
Proof.
  induction l as [|y l IH]; simpl; intros Hl; [done|].
  rewrite (Hl y) by left. apply IH. intros x Hx. apply Hl. by right.
Qed.

Section GotoFacts.
Context `{Selection}.

Lemma empty_selection_single (s : list Region) :
  empty_selection_of s = true <-> single_empty s.
Proof.
  unfold single_empty. destruct s as [|c [|c' s]]; simpl.
  - split; [done|]. by intros (c & ? & _).
  - rewrite empty_true. split.
    + intros Hc. by exists c.
    + by intros (c' & [= ->] & Hc).
  - split; [done|]. by intros (c0 & ? & _).
Qed.

Lemma next_match_eligible (point : Z) (s : list Region) (r : Region) :
  next_match point (empty_selection_of s) r = true <-> next_eligible point s r.
Proof.
  unfold next_match, next_eligible.
  rewrite orb_true_iff, !andb_true_iff, negb_true_iff, Z.eqb_eq, Z.ltb_lt,
    empty_selection_single, empty_false. tauto.
Qed.

Lemma previous_match_eligible (point : Z) (s : list Region) (r : Region) :
  previous_match point (empty_selection_of s) r = true <-> previous_eligible point s r.
Proof.
  unfold previous_match, previous_eligible.
  rewrite orb_true_iff, !andb_true_iff, negb_true_iff, Z.eqb_eq, Z.gtb_gt,
    empty_selection_single, empty_false. tauto.
Qed.

Lemma next_match_not_eligible (point : Z) (s : list Region) (r : Region) :
  next_match point (empty_selection_of s) r = false <-> ~ next_eligible point s r.
Proof. rewrite <- next_match_eligible. by destruct (next_match _ _ _). Qed.

Lemma previous_match_not_eligible (point : Z) (s : list Region) (r : Region) :
  previous_match point (empty_selection_of s) r = false <-> ~ previous_eligible point s r.
Proof. rewrite <- previous_match_eligible. by destruct (previous_match _ _ _). Qed.

Lemma sel_add_all_ordered (regions s : list Region) :
  ordered s -> ordered (sel_add_all regions s).
Proof.
  unfold sel_add_all. revert s.
  induction regions as [|r regions IH]; intros s Hs; simpl; [done|].
  apply IH. by apply sel_add_ordered.
Qed.

Lemma goto_regions_ordered (v : View) : ordered (goto_regions v).
Proof. unfold goto_regions. do 2 apply sel_add_all_ordered. constructor. Qed.

(** The selection is never empty once the guard has run. *)
Lemma ensure_selection_sel (v : View) :
  sel (ensure_selection v) = match sel v with [] => [Region.make 0 0] | _ => sel v end.
Proof.
  unfold ensure_selection. destruct (sel v) as [|c s] eqn:Hs; simpl.
  - by rewrite sel_add_nil.
  - by rewrite Hs.
Qed.

Lemma ensure_selection_cons (v : View) :
  exists c s, sel (ensure_selection v) = c :: s.
Proof. rewrite ensure_selection_sel. destruct (sel v) as [|c s]; eauto. Qed.

Lemma ensure_selection_marks (v : View) :
  goto_regions (ensure_selection v) = goto_regions v.
Proof. unfold ensure_selection. by destruct (bool_decide _). Qed.

(** [select_lint_region] and the last [else] overwrite the selection. *)
Lemma select_lint_region_set_sel (s : list Region) (v : View) (r : Region) :
  select_lint_region (set_sel s (ensure_selection v)) r = select_lint_region v r.
Proof. unfold ensure_selection. by destruct (bool_decide _). Qed.

Lemma report_no_more_set_sel (saved s : list Region) (d : str) (v : View) :
  report_no_more saved d (set_sel s (ensure_selection v)) = report_no_more saved d v.
Proof. unfold ensure_selection. by destruct (bool_decide _). Qed.

End GotoFacts.

Lemma ordered_split (pre post : list Region) (r : Region) :
  ordered (pre ++ r :: post) ->
  Forall (fun y => before y r) pre /\ Forall (before r) post.
Proof.
  unfold ordered. rewrite StronglySorted_app. intros (Hcross & _ & Hr).
  apply StronglySorted_inv in Hr as [_ Hpost]. split; [|done].
  apply Forall_forall. intros y Hy. apply Hcross; [done|left].
Qed.

Section GotoOutcome.
Context `{Selection}.

Lemma anchor_Return (point : option Z) (d : str) (c : Region) (s : list Region) :
  anchor point d (c :: s) = Return (anchor_of point d (c :: s)).
Proof.
  unfold anchor, anchor_of, anchor_next, anchor_previous, is_next.
  destruct point as [x|]; simpl; [by destruct (bool_decide _)|].
  destruct (bool_decide _); [done|].
  assert (is_Some (last (c :: s))) as [r Hr] by (by apply last_is_Some).
  by rewrite Hr.
Qed.

(** A region found by the loops is the outcome. *)
Lemma goto_error_found (p : Persist) (v : View) (point : option Z) (d : str) (r : Region) :
  let s := sel (ensure_selection v) in
  scan d (anchor_of point d s) (empty_selection_of s) (goto_regions v) = Some r ->
  goto_error p v point d = (select_lint_region v r, Return (Some r)).
Proof.
  intros s Hscan. unfold goto_error. fold s.
  destruct (ensure_selection_cons v) as (c & s' & Hs). fold s in Hs.
  rewrite Hs in *. rewrite anchor_Return. simpl sel.
  rewrite ensure_selection_marks, Hscan. by rewrite select_lint_region_set_sel.
Qed.

(** Nothing found: the wrap, or the report. *)
Lemma goto_error_not_found (p : Persist) (v : View) (point : option Z) (d : str) :
  let s := sel (ensure_selection v) in
  let pt := anchor_of point d s in
  let regions := goto_regions v in
  scan d pt (empty_selection_of s) regions = None ->
  goto_error p v point d =
    match may_wrap regions pt with
    | Raise e => (set_sel regions (ensure_selection v), Raise e)
    | Return wrap =>
        if wrap && get_wrap_find p
        then match (if is_next d then regions !! 0%nat else last regions) with
             | Some r => (select_lint_region v r, Return (Some r))
             | None => (set_sel regions (ensure_selection v), Raise IndexError)
             end
        else (report_no_more s d v, Return None)
    end.
Proof.
  intros s pt regions Hscan. unfold goto_error. fold s.
  destruct (ensure_selection_cons v) as (c & s' & Hs). fold s in Hs.
  subst pt regions. rewrite Hs in *. rewrite anchor_Return. simpl sel.
  rewrite ensure_selection_marks, Hscan.
  destruct (may_wrap _ _) as [[|]|e]; simpl; [| |done].
  - destruct (get_wrap_find p); simpl.
    + destruct (is_next d).
      * destruct (goto_regions v !! 0%nat); [|done].
        by rewrite select_lint_region_set_sel.
      * destruct (last (goto_regions v)); [|done].
        by rewrite select_lint_region_set_sel.
    + by rewrite report_no_more_set_sel.
  - by rewrite report_no_more_set_sel.
Qed.

End GotoOutcome.

(** ** The forward and the backward search *)

(** C1. Going to the next error starts from the explicit point when there is
    one and from the begin of the first selection range otherwise; as soon as
    one of the regions qualifies, the command selects the first qualifying
    region of the region sequence, which is in ascending order of begin:
    the regions in front of it do not qualify and begin no later, the
    regions behind it begin no earlier. *)
Theorem goto_next_first_eligible `{Selection}
    (p : Persist) (v : View) (point : option Z) (x : Region) :
  let s := sel (ensure_selection v) in
  let pt := anchor_next point s in
  x ∈ goto_regions v ->
  next_eligible pt s x ->
  is_Some (head s) /\
  exists pre r post,
    goto_regions v = pre ++ r :: post /\
    next_eligible pt s r /\
    Forall (fun y => ~ next_eligible pt s y /\ Region.begin y <= Region.begin r) pre /\
    Forall (fun y => Region.begin r <= Region.begin y) post /\
    goto_error p v point (lit "next") = (select_lint_region v r, Return (Some r)).
Proof.
  intros s pt Hx Hel.
  split; [destruct (ensure_selection_cons v) as (c & s' & Hs); subst s; rewrite Hs; by eexists|].
  apply next_match_eligible in Hel.
  destruct (find_is_Some _ _ _ Hx Hel) as [r Hr].
  destruct (find_first _ _ _ Hr) as (pre & post & Hsplit & Hr_ok & Hpre).
  exists pre, r, post. split; [done|].
  pose proof (goto_regions_ordered v) as Hord. rewrite Hsplit in Hord.
  apply ordered_split in Hord as [Hbefore Hafter].
  split; [by apply next_match_eligible|].
  split.
  { apply Forall_forall. intros y Hy. split.
    - apply next_match_not_eligible. by eapply Forall_forall in Hpre.
    - eapply Forall_forall in Hbefore; [|done]. unfold before in Hbefore.
      pose proof (begin_le_end y). lia. }
  split.
  { eapply Forall_impl; [exact Hafter|]. unfold before. intros y Hy.
    pose proof (begin_le_end r). lia. }
  apply goto_error_found. unfold scan, anchor_of, is_next.
  by rewrite bool_decide_eq_true_2.
Qed.

(** C2. Going to the previous error starts from the explicit point when there
    is one and from the end of the last selection range otherwise; the
    regions are visited from the last to the first, which is in descending
    order of end, and the first one that qualifies is selected: the regions
    behind it do not qualify and end no earlier, the regions in front of it
    end no later. *)
Theorem goto_previous_first_eligible `{Selection}
    (p : Persist) (v : View) (point : option Z) (direction : str) (x : Region) :
  let s := sel (ensure_selection v) in
  let pt := anchor_previous point s in
  direction <> lit "next" ->
  x ∈ goto_regions v ->
  previous_eligible pt s x ->
  is_Some (last s) /\
  exists pre r post,
    goto_regions v = pre ++ r :: post /\
    previous_eligible pt s r /\
    Forall (fun y => ~ previous_eligible pt s y /\ Region.end_ r <= Region.end_ y) post /\
    Forall (fun y => Region.end_ y <= Region.end_ r) pre /\
    goto_error p v point direction = (select_lint_region v r, Return (Some r)).
Proof.
  intros s pt Hd Hx Hel.
  split.
  { destruct (ensure_selection_cons v) as (c & s' & Hs). subst s. rewrite Hs.
    by apply last_is_Some. }
  apply previous_match_eligible in Hel.
  apply elem_of_reverse in Hx.
  destruct (find_is_Some _ _ _ Hx Hel) as [r Hr].
  destruct (find_first _ _ _ Hr) as (seen & rest & Hsplit & Hr_ok & Hseen).
  exists (reverse rest), r, (reverse seen).
  assert (goto_regions v = reverse rest ++ r :: reverse seen) as Hregions.
  { rewrite <- (reverse_involutive (goto_regions v)), Hsplit, reverse_app, reverse_cons.
    by rewrite <- app_assoc. }
  split; [done|].
  pose proof (goto_regions_ordered v) as Hord. rewrite Hregions in Hord.
  apply ordered_split in Hord as [Hbefore Hafter].
  split; [by apply previous_match_eligible|].
  split.
  { apply Forall_forall. intros y Hy. split.
    - apply previous_match_not_eligible. rewrite Forall_forall in Hseen.
      apply Hseen. by apply elem_of_reverse.
    - eapply Forall_forall in Hafter; [|done]. unfold before in Hafter.
      pose proof (begin_le_end y). lia. }
  split.
  { eapply Forall_impl; [exact Hbefore|]. unfold before. intros y Hy.
    pose proof (begin_le_end r). lia. }
  apply goto_error_found. unfold scan, anchor_of, is_next.
  by rewrite bool_decide_eq_false_2.
Qed.

Lemma goto_next_first_eligible_witness :
  let v := demo_view [Region.make 10 10] in
  let x := Region.make 10 15 in
  let s := sel (ensure_selection (H := merging_selection) v) in
  let pt := anchor_next None s in
  x ∈ goto_regions (H := merging_selection) v /\
  next_eligible pt s x /\
  is_Some (head s) /\
  exists pre r post,
    goto_regions (H := merging_selection) v = pre ++ r :: post /\
    next_eligible pt s r /\
    Forall (fun y => ~ next_eligible pt s y /\ Region.begin y <= Region.begin r) pre /\
    Forall (fun y => Region.begin r <= Region.begin y) post /\
    goto_error (H := merging_selection) (demo_persist true) v None (lit "next")
      = (select_lint_region (H := merging_selection) v r, Return (Some r)).
Proof.
  intros v x s pt.
  assert (x ∈ goto_regions (H := merging_selection) v) as Hx.
  { vm_compute. right. left. }
  assert (next_eligible pt s x) as Hel.
  { left. split; [reflexivity|]. split; [|vm_compute; discriminate].
    exists (Region.make 10 10). split; reflexivity. }
  split; [exact Hx|]. split; [exact Hel|].
  exact (goto_next_first_eligible (H := merging_selection)
           (demo_persist true) v None x Hx Hel).
Defined.

Lemma goto_previous_first_eligible_witness :
  let v := demo_view [Region.make 3 3; Region.make 12 18] in
  let x := Region.make 10 15 in
  let s := sel (ensure_selection (H := merging_selection) v) in
  let pt := anchor_previous None s in
  lit "previous" <> lit "next" /\
  x ∈ goto_regions (H := merging_selection) v /\
  previous_eligible pt s x /\
  is_Some (last s) /\
  exists pre r post,
    goto_regions (H := merging_selection) v = pre ++ r :: post /\
    previous_eligible pt s r /\
    Forall (fun y => ~ previous_eligible pt s y /\ Region.end_ r <= Region.end_ y) post /\
    Forall (fun y => Region.end_ y <= Region.end_ r) pre /\
    goto_error (H := merging_selection) (demo_persist true) v None (lit "previous")
      = (select_lint_region (H := merging_selection) v r, Return (Some r)).
Proof.
  intros v x s pt.
  assert (lit "previous" <> lit "next") as Hd by (vm_compute; discriminate).
  assert (x ∈ goto_regions (H := merging_selection) v) as Hx.
  { vm_compute. right. left. }
  assert (previous_eligible pt s x) as Hel by (right; reflexivity).
  split; [exact Hd|]. split; [exact Hx|]. split; [exact Hel|].
  exact (goto_previous_first_eligible (H := merging_selection)
           (demo_persist true) v None (lit "previous") x Hd Hx Hel).
Defined.

(** ** Wrapping around, or reporting that there is nothing more *)

Section Wrap.
Context `{Selection}.

Lemma scan_None (d : str) (pt : Z) (s regions : list Region) :
  (forall x, x ∈ regions -> ~ eligible d pt s x) ->
  scan d pt (empty_selection_of s) regions = None.
Proof.
  unfold eligible, scan, is_next. intros Hnone.
  destruct (bool_decide (d = lit "next")); apply find_None; intros x Hx.
  - apply next_match_not_eligible. by apply Hnone.
  - apply previous_match_not_eligible. by apply Hnone, elem_of_reverse.
Qed.

(** The test in front of the wrap looks at [regions[0]]; with a single
    region that is the last region as well. *)
Lemma may_wrap_spec (d : str) (pt : Z) (regions : list Region) (first last_ : Region) :
  head regions = Some first ->
  last regions = Some last_ ->
  let target := if is_next d then first else last_ in
  exists wrap,
    may_wrap regions pt = Return wrap /\
    (if is_next d then regions !! 0%nat else last regions) = Some target /\
    (wrap = true <-> (1 < length regions)%nat \/ ~ inside target pt).
Proof.
  intros Hfirst Hlast target. destruct regions as [|r tl]; [done|].
  injection Hfirst as ->. unfold may_wrap. simpl lookup.
  destruct (Z.ltb_spec 1 (Z.of_nat (length (first :: tl)))) as [Hlen|Hlen].
  - exists true. split; [done|]. split; [by subst target; destruct (is_next d)|].
    split; [|done]. intros _. left. lia.
  - exists (negb (Region.contains_point first pt)).
    destruct tl as [|r' tl]; [|simpl in Hlen; lia].
    injection Hlast as <-. subst target.
    split; [done|]. split; [by destruct (is_next d)|].
    rewrite negb_true_iff, <- not_true_iff_false, contains_point_inside.
    destruct (is_next d); simpl; split; try tauto; intros [?|?]; (lia || done).
Qed.
End Wrap.

(** C3. When no region qualifies in the direction of the search (the
    regions not being empty): if there is more than one region, or the
    first region (going to the next error) or last region (going to the
    previous one) does not contain the anchor, and [wrap_find] is on, the
    command selects that first or last region; otherwise it puts the saved
    selection back, reports that there is no further error in that direction
    and returns nothing.  With a single region that contains the anchor and a
    selection that is not a single empty range, that report is the outcome
    whatever [wrap_find] says, and the selection is the saved one put back:
    the selection the view had, when the editor reproduces it from its
    ranges. *)
Theorem goto_wrap_or_report `{Selection}
    (p : Persist) (v : View) (point : option Z) (direction : str)
    (first last_ : Region) :
  let s := sel (ensure_selection v) in
  let pt := anchor_of point direction s in
  let regions := goto_regions v in
  let target := if bool_decide (direction = lit "next") then first else last_ in
  head regions = Some first ->
  last regions = Some last_ ->
  ((forall x, x ∈ regions -> ~ eligible direction pt s x) ->
     (((1 < length regions)%nat \/ ~ inside target pt) /\ get_wrap_find p = true ->
        goto_error p v point direction = (select_lint_region v target, Return (Some target)))
     /\
     (~ (((1 < length regions)%nat \/ ~ inside target pt) /\ get_wrap_find p = true) ->
        goto_error p v point direction = (report_no_more s direction v, Return None)))
  /\
  (regions = [first] -> inside first pt -> ~ single_empty s ->
     goto_error p v point direction = (report_no_more s direction v, Return None)
     /\ sel (report_no_more s direction v) = sel_add_all s []
     /\ (sel v <> [] -> sel_add_all (sel v) [] = sel v ->
         sel (goto_error p v point direction).1 = sel v)).
Proof.
  intros s pt regions target Hfirst Hlast.
  destruct (may_wrap_spec direction pt regions first last_ Hfirst Hlast)
    as (wrap & Hwrap & Htarget & Hcond).
  fold (is_next direction) in target. fold target in Htarget, Hcond.
  assert ((forall x, x ∈ regions -> ~ eligible direction pt s x) ->
          goto_error p v point direction =
            if wrap && get_wrap_find p
            then (select_lint_region v target, Return (Some target))
            else (report_no_more s direction v, Return None)) as Hgoto.
  { intros Hnone. rewrite goto_error_not_found by by apply scan_None.
    fold s pt regions. rewrite Hwrap. destruct (wrap && get_wrap_find p); [|done].
    by rewrite Htarget. }
  split.
  - intros Hnone. rewrite (Hgoto Hnone). split.
    + intros [Hc Hw]. apply Hcond in Hc. by rewrite Hc, Hw.
    + intros Hnot. destruct wrap; simpl; [|done].
      destruct (get_wrap_find p); [|done]. exfalso. apply Hnot. split; [|done].
      by apply Hcond.
  - intros Hone Hin Hsel.
    assert (target = first) as Htf.
    { subst target. rewrite Hone in Hlast. injection Hlast as <-.
      by destruct (is_next direction). }
    assert (wrap = false) as ->.
    { destruct wrap; [|done]. destruct Hcond as [Hc _].
      destruct (Hc eq_refl) as [Hlen|Hout].
      - rewrite Hone in Hlen. simpl in Hlen. lia.
      - by rewrite Htf in Hout. }
    assert (goto_error p v point direction = (report_no_more s direction v, Return None))
      as Hreport.
    { apply Hgoto. rewrite Hone. intros x Hx. apply list_elem_of_singleton in Hx as ->.
      unfold eligible, next_eligible, previous_eligible, inside in *.
      destruct (bool_decide _); intros [(_ & Hse & _)|Hlt]; (done || lia). }
    split; [done|]. split; [done|].
    intros Hne Hround. rewrite Hreport. simpl. subst s.
    rewrite ensure_selection_sel. destruct (sel v); done.
Qed.

Lemma goto_wrap_or_report_witness :
  let v := demo_view [Region.make 21 23] in
  let w := single_view [Region.make 22 25] in
  (head (goto_regions (H := merging_selection) v) = Some (Region.make 2 6) /\
   last (goto_regions (H := merging_selection) v) = Some (Region.make 20 22) /\
   goto_error (H := merging_selection) (demo_persist true) v None (lit "next")
     = (select_lint_region (H := merging_selection) v (Region.make 2 6),
        Return (Some (Region.make 2 6))) /\
   goto_error (H := merging_selection) (demo_persist false) v None (lit "next")
     = (report_no_more (H := merging_selection) [Region.make 21 23] (lit "next") v,
        Return None)) /\
  (head (goto_regions (H := merging_selection) w) = Some (Region.make 20 30) /\
   last (goto_regions (H := merging_selection) w) = Some (Region.make 20 30) /\
   goto_error (H := merging_selection) (demo_persist true) w None (lit "previous")
     = (report_no_more (H := merging_selection) [Region.make 22 25] (lit "previous") w,
        Return None) /\
   sel (goto_error (H := merging_selection) (demo_persist true) w None (lit "previous")).1
     = sel w).
Proof.
  intros v w.
  assert (forall x, x ∈ goto_regions (H := merging_selection) v ->
            ~ eligible (lit "next")
                (anchor_of None (lit "next") (sel (ensure_selection (H := merging_selection) v)))
                (sel (ensure_selection (H := merging_selection) v)) x) as Hnone.
  { intros x Hx. apply list_elem_of_In in Hx. vm_compute in Hx.
    destruct Hx as [<-|[<-|[<-|[]]]]; intros [(Heq & _)|Hlt]; vm_compute in *; discriminate. }
  split.
  - split; [reflexivity|]. split; [reflexivity|]. split.
    + destruct (goto_wrap_or_report (H := merging_selection) (demo_persist true) v None
                  (lit "next") (Region.make 2 6) (Region.make 20 22) eq_refl eq_refl)
        as [Hscan _].
      destruct (Hscan Hnone) as [Hwrap _]. apply Hwrap.
      split; [left; vm_compute; lia|reflexivity].
    + destruct (goto_wrap_or_report (H := merging_selection) (demo_persist false) v None
                  (lit "next") (Region.make 2 6) (Region.make 20 22) eq_refl eq_refl)
        as [Hscan _].
      destruct (Hscan Hnone) as [_ Hreport]. apply Hreport.
      intros [_ Hw]. discriminate Hw.
  - split; [reflexivity|]. split; [reflexivity|].
    destruct (goto_wrap_or_report (H := merging_selection) (demo_persist true) w None
                (lit "previous") (Region.make 20 30) (Region.make 20 30) eq_refl eq_refl)
      as [_ Hstay].
    destruct Hstay as (Hreport & _ & Hsame).
    + reflexivity.
    + vm_compute. split; discriminate.
    + intros (c & Hc & Hempty). injection Hc as <-. vm_compute in Hempty. discriminate.
    + split; [exact Hreport|]. apply Hsame; [discriminate|reflexivity].
Defined.

(** ** Failure leaves the selection as it was *)

Section Failure.
Context `{Selection}.

Lemma goto_error_None_inv (p : Persist) (v v' : View) (point : option Z) (d : str) :
  goto_error p v point d = (v', Return None) ->
  let s := sel (ensure_selection v) in
  let pt := anchor_of point d s in
  v' = report_no_more s d v /\
  (forall x, x ∈ goto_regions v -> ~ eligible d pt s x) /\
  (get_wrap_find p = false \/ exists r, goto_regions v = [r] /\ inside r pt).
Proof.
  intros Hgoto s pt.
  destruct (scan d pt (empty_selection_of s) (goto_regions v)) as [r|] eqn:Hscan.
  { apply (goto_error_found p) in Hscan. rewrite Hscan in Hgoto. discriminate. }
  assert (forall x, x ∈ goto_regions v -> ~ eligible d pt s x) as Hnone.
  { unfold scan, eligible, is_next in *. intros x Hx.
    destruct (bool_decide (d = lit "next")).
    - intros Hel. apply next_match_eligible in Hel.
      destruct (find_is_Some _ _ _ Hx Hel) as [r Hr]. fold pt in Hr. congruence.
    - intros Hel. apply previous_match_eligible in Hel. apply elem_of_reverse in Hx.
      destruct (find_is_Some _ _ _ Hx Hel) as [r Hr]. fold pt in Hr. congruence. }
  rewrite (goto_error_not_found p) in Hgoto by exact Hscan. fold s pt in Hgoto.
  destruct (goto_regions v) as [|first tl] eqn:Hregions; [discriminate|].
  assert (is_Some (last (first :: tl))) as [last_ Hlast] by (by apply last_is_Some).
  destruct (may_wrap_spec d pt (first :: tl) first last_ eq_refl Hlast)
    as (wrap & Hwrap & Htarget & Hcond).
  rewrite Hwrap, Htarget in Hgoto.
  destruct wrap; simpl in Hgoto.
  - destruct (get_wrap_find p); [discriminate|].
    injection Hgoto as <-. split; [done|]. split; [done|]. by left.
  - injection Hgoto as <-. split; [done|]. split; [done|]. right.
    destruct tl as [|r' tl].
    + exists first. split; [done|].
      injection Hlast as <-. destruct (is_next d); simpl in Hcond;
        destruct (decide (inside first pt)) as [|Hout]; try done;
        destruct Hcond as [_ Hc]; by specialize (Hc (or_intror Hout)).
    + destruct Hcond as [_ Hc]. exfalso.
      assert (true = false -> False) as Hne by discriminate. apply Hne.
      symmetry. apply Hc. left. simpl. lia.
Qed.
End Failure.

(** C7. When the command ends with the report that there is no further
    error, which happens only when no region qualifies and either
    [wrap_find] is off or the only region contains the anchor, the view has
    the selection it had before the call: the selection is one of at least
    one range, as the specification's selection state is, and one that the
    editor reproduces when its ranges are added to the cleared selection.
    The marks and the scroll position are untouched, and the one thing added
    is the message. *)
Theorem goto_failure_restores_selection `{Selection}
    (p : Persist) (v v' : View) (point : option Z) (direction : str) :
  sel v <> [] ->
  sel_add_all (sel v) [] = sel v ->
  goto_error p v point direction = (v', Return None) ->
  sel v' = sel v /\
  warning_marks v' = warning_marks v /\
  error_marks v' = error_marks v /\
  centered v' = centered v /\
  dialogs v' = dialogs v ++ [lit "No " ++ direction ++ lit " lint error."] /\
  (forall x, x ∈ goto_regions v -> ~ eligible direction (anchor_of point direction (sel v)) (sel v) x) /\
  (get_wrap_find p = false \/
   exists r, goto_regions v = [r] /\ inside r (anchor_of point direction (sel v))).
Proof.
  intros Hne Hround Hgoto.
  apply goto_error_None_inv in Hgoto as (-> & Hnone & Hwhy).
  rewrite ensure_selection_sel in *.
  destruct (sel v) as [|c s] eqn:Hs; [done|].
  repeat split; try done.
Qed.

Lemma goto_failure_restores_selection_witness :
  let v := demo_view [Region.make 21 23] in
  let v' := report_no_more (H := merging_selection) [Region.make 21 23] (lit "next") v in
  sel v <> [] /\
  sel_add_all (H := merging_selection) (sel v) [] = sel v /\
  goto_error (H := merging_selection) (demo_persist false) v None (lit "next")
    = (v', Return None) /\
  sel v' = sel v.
Proof.
  intros v v'.
  assert (sel v <> []) as Hne by discriminate.
  assert (sel_add_all (H := merging_selection) (sel v) [] = sel v) as Hround by reflexivity.
  assert (goto_error (H := merging_selection) (demo_persist false) v None (lit "next")
          = (v', Return None)) as Hgoto by (vm_compute; reflexivity).
  split; [exact Hne|]. split; [exact Hround|]. split; [exact Hgoto|].
  exact (proj1 (goto_failure_restores_selection (H := merging_selection)
                  (demo_persist false) v v' None (lit "next") Hne Hround Hgoto)).
Defined.

(** ** Index errors *)

(** C9. The command reads [regions[0]] and [regions[-1]] within bounds
    exactly when the regions are not empty: with regions it raises nothing,
    without any it raises [IndexError] (at the test in front of the wrap).
    The guard of [error_command] and [is_enabled] look at the errors of the
    view and not at its regions: a view with errors and without regions gets
    past both, and the command raises. *)
Theorem goto_index_error `{Selection}
    (p : Persist) (v : View) (point : option Z) (direction : str) :
  (goto_regions v <> [] -> forall e, (goto_error p v point direction).2 <> Raise e) /\
  (goto_regions v = [] -> (goto_error p v point direction).2 = Raise IndexError) /\
  (is_Some (has_errors (demo_persist true) (view_id bare_view)) /\
   is_enabled (demo_persist true) bare_view = true /\
   goto_regions bare_view = [] /\
   (goto_error_command (demo_persist true) bare_view None (lit "next")).2
     = Raise IndexError).
Proof.
  set (s := sel (ensure_selection v)).
  set (pt := anchor_of point direction s).
  split; [|split].
  - intros Hregions e.
    destruct (scan direction pt (empty_selection_of s) (goto_regions v)) as [r|] eqn:Hscan.
    { by rewrite (goto_error_found p v point direction r Hscan). }
    rewrite (goto_error_not_found p v point direction Hscan). fold s pt.
    destruct (goto_regions v) as [|first tl] eqn:Hr; [done|].
    assert (is_Some (last (first :: tl))) as [last_ Hlast] by (by apply last_is_Some).
    destruct (may_wrap_spec direction pt (first :: tl) first last_ eq_refl Hlast)
      as (wrap & -> & -> & _).
    by destruct (wrap && get_wrap_find p).
  - intros Hregions.
    assert (scan direction pt (empty_selection_of s) (goto_regions v) = None) as Hscan.
    { rewrite Hregions. unfold scan. by destruct (is_next direction). }
    rewrite (goto_error_not_found p v point direction Hscan). by rewrite Hregions.
  - split; [by eexists|]. split; [by vm_compute|]. split; [done|].
    unfold goto_error_command, error_command.
    assert (has_errors (demo_persist true) (view_id bare_view)
            = Some {[ 0 := [(2, lit "unused import")] ]}) as -> by by vm_compute.
    assert (scan (lit "next") (anchor_of None (lit "next") (sel (ensure_selection bare_view)))
              (empty_selection_of (sel (ensure_selection bare_view)))
              (goto_regions bare_view) = None) as Hscan by done.
    by rewrite (goto_error_not_found (demo_persist true) bare_view None (lit "next") Hscan).
Qed.

Lemma goto_index_error_witness :
  goto_regions (H := merging_selection) bare_view = [] /\
  (goto_error (H := merging_selection) (demo_persist true) bare_view None (lit "next")).2
    = Raise IndexError /\
  goto_regions (H := merging_selection) (demo_view []) <> [] /\
  (goto_error (H := merging_selection) (demo_persist true) (demo_view []) None (lit "next")).2
    <> Raise IndexError.
Proof.
  split; [reflexivity|]. split.
  - exact (proj1 (proj2 (goto_index_error (H := merging_selection)
                           (demo_persist true) bare_view None (lit "next"))) eq_refl).
  - assert (goto_regions (H := merging_selection) (demo_view []) <> []) as Hne
      by (vm_compute; discriminate).
    split; [exact Hne|].
    exact (proj1 (goto_index_error (H := merging_selection)
                    (demo_persist true) (demo_view []) None (lit "next")) Hne IndexError).
Defined.

(** ** A selection without ranges *)

Section ScanOrder.
Context `{Selection}.

(** The regions in the order the loop of the direction visits them. *)
Lemma goto_error_first_in_scan (p : Persist) (v : View) (point : option Z) (d : str)
    (x : Region) :
  let s := sel (ensure_selection v) in
  let pt := anchor_of point d s in
  let visit := if bool_decide (d = lit "next") then goto_regions v
               else reverse (goto_regions v) in
  x ∈ goto_regions v -> eligible d pt s x ->
  exists pre r post,
    visit = pre ++ r :: post /\
    eligible d pt s r /\
    Forall (fun y => ~ eligible d pt s y) pre /\
    goto_error p v point d = (select_lint_region v r, Return (Some r)).
Proof.
  intros s pt visit Hx Hel. subst visit.
  assert (forall r, scan d pt (empty_selection_of s) (goto_regions v) = Some r ->
            goto_error p v point d = (select_lint_region v r, Return (Some r))) as Hfound
    by (intros r; apply goto_error_found).
  unfold scan, eligible, is_next in *.
  destruct (bool_decide (d = lit "next")).
  - apply next_match_eligible in Hel.
    destruct (find_is_Some _ _ _ Hx Hel) as [r Hr].
    destruct (find_first _ _ _ Hr) as (pre & post & Hsplit & Hr_ok & Hpre).
    exists pre, r, post. split; [done|]. split; [by apply next_match_eligible|].
    split; [|by apply Hfound].
    eapply Forall_impl; [exact Hpre|]. intros y. apply next_match_not_eligible.
  - apply previous_match_eligible in Hel. apply elem_of_reverse in Hx.
    destruct (find_is_Some _ _ _ Hx Hel) as [r Hr].
    destruct (find_first _ _ _ Hr) as (pre & post & Hsplit & Hr_ok & Hpre).
    exists pre, r, post. split; [done|]. split; [by apply previous_match_eligible|].
    split; [|by apply Hfound].
    eapply Forall_impl; [exact Hpre|]. intros y. apply previous_match_not_eligible.
Qed.

(** Nothing qualifies and [wrap_find] is off: the report. *)
Lemma goto_error_no_wrap_report (p : Persist) (v : View) (point : option Z) (d : str) :
  let s := sel (ensure_selection v) in
  let pt := anchor_of point d s in
  (forall x, x ∈ goto_regions v -> ~ eligible d pt s x) ->
  goto_regions v <> [] ->
  get_wrap_find p = false ->
  goto_error p v point d = (report_no_more s d v, Return None).
Proof.
  intros s pt Hnone Hregions Hoff.
  rewrite (goto_error_not_found p v point d) by (by apply scan_None).
  fold s pt. destruct (goto_regions v) as [|first tl] eqn:Hr; [done|].
  assert (is_Some (last (first :: tl))) as [last_ Hlast] by (by apply last_is_Some).
  destruct (may_wrap_spec d pt (first :: tl) first last_ eq_refl Hlast)
    as (wrap & -> & _ & _).
  rewrite Hoff. by destruct wrap.
Qed.

End ScanOrder.

(** C10. Called on a selection without ranges and without an explicit point,
    the command first makes the selection the single empty range at offset
    0 and goes on as if the view had come with it.  The search it runs
    starts at 0, in both directions, with the selection counting as a single
    empty range: as soon as a region qualifies for the anchor 0 and that
    selection, the command returns the first such region in the order of its
    loop; in particular, when a region that is not empty begins (going to the
    next error) or ends (going to the previous one) at 0, the region returned
    is one that begins (ends) at 0.  When nothing qualifies for the anchor 0
    and [wrap_find] is off, the command fails; and whenever it fails, nothing
    qualified for the anchor 0, and the selection it leaves is that range at
    0, not the selection without ranges of before. *)
Theorem goto_without_ranges `{Selection} (p : Persist) (v : View) (direction : str) :
  sel v = [] ->
  let s := sel (ensure_selection v) in
  let visit := if bool_decide (direction = lit "next") then goto_regions v
               else reverse (goto_regions v) in
  let edge := fun r => if bool_decide (direction = lit "next") then Region.begin r
                       else Region.end_ r in
  s = [Region.make 0 0] /\
  anchor None direction s = Return 0 /\
  empty_selection_of s = true /\
  single_empty s /\
  (forall r, non_empty r ->
     (Region.begin r = 0 -> next_match 0 (empty_selection_of s) r = true) /\
     (Region.end_ r = 0 -> previous_match 0 (empty_selection_of s) r = true)) /\
  goto_error p v None direction = goto_error p (set_sel [Region.make 0 0] v) None direction /\
  (forall x, x ∈ goto_regions v -> eligible direction 0 [Region.make 0 0] x ->
     exists pre r post,
       visit = pre ++ r :: post /\
       eligible direction 0 [Region.make 0 0] r /\
       Forall (fun y => ~ eligible direction 0 [Region.make 0 0] y) pre /\
       goto_error p v None direction = (select_lint_region v r, Return (Some r))) /\
  (forall x, x ∈ goto_regions v -> non_empty x -> edge x = 0 ->
     exists r, r ∈ goto_regions v /\ non_empty r /\ edge r = 0 /\
       goto_error p v None direction = (select_lint_region v r, Return (Some r))) /\
  ((forall x, x ∈ goto_regions v -> ~ eligible direction 0 [Region.make 0 0] x) ->
   goto_regions v <> [] -> get_wrap_find p = false ->
   goto_error p v None direction
     = (report_no_more [Region.make 0 0] direction v, Return None)) /\
  (forall v', goto_error p v None direction = (v', Return None) ->
     (forall x, x ∈ goto_regions v -> ~ eligible direction 0 [Region.make 0 0] x) /\
     sel v' = [Region.make 0 0] /\ sel v' <> sel v).
Proof.
  intros Hempty s visit edge.
  assert (s = [Region.make 0 0]) as Hs.
  { subst s. by rewrite ensure_selection_sel, Hempty. }
  assert (single_empty s) as Hsingle.
  { rewrite Hs. by exists (Region.make 0 0). }
  assert (anchor_of None direction s = 0) as Hanchor.
  { rewrite Hs. unfold anchor_of. by destruct (bool_decide _). }
  assert (forall x, x ∈ goto_regions v -> eligible direction 0 [Region.make 0 0] x ->
            exists pre r post,
              visit = pre ++ r :: post /\
              eligible direction 0 [Region.make 0 0] r /\
              Forall (fun y => ~ eligible direction 0 [Region.make 0 0] y) pre /\
              goto_error p v None direction = (select_lint_region v r, Return (Some r)))
    as Hfirst.
  { intros x Hx Hel.
    pose proof (goto_error_first_in_scan p v None direction x) as Hscan.
    cbv zeta in Hscan. fold s in Hscan. rewrite Hanchor, Hs in Hscan.
    by apply Hscan. }
  split; [done|]. split.
  { rewrite Hs. unfold anchor. by destruct (is_next direction). }
  split; [by rewrite Hs|]. split; [done|]. split.
  { intros r Hr. split; intros H0.
    - apply next_match_eligible. left. by rewrite H0.
    - apply previous_match_eligible. left. by rewrite H0. }
  split.
  { unfold goto_error, ensure_selection. simpl. rewrite Hempty. simpl.
    by rewrite sel_add_nil. }
  split; [exact Hfirst|]. split.
  { intros x Hx Hne Hedge.
    assert (eligible direction 0 [Region.make 0 0] x) as Hel.
    { subst edge. unfold eligible. rewrite <- Hs.
      destruct (bool_decide (direction = lit "next")); left; by rewrite Hedge. }
    destruct (Hfirst x Hx Hel) as (pre & r & post & Hvisit & Hr & Hpre & Hgoto).
    pose proof (goto_regions_ordered v) as Hord.
    exists r. subst visit edge. unfold eligible in *.
    destruct (bool_decide (direction = lit "next")).
    - assert (r ∈ goto_regions v) as Hin
        by (rewrite Hvisit; apply elem_of_app; right; left).
      split; [done|].
      destruct Hr as [(Heq & _ & Hne')|Hlt]; [by repeat split|].
      exfalso. rewrite Hvisit in Hx, Hord.
      apply ordered_split in Hord as [_ Hafter]. rewrite Forall_forall in Hafter.
      apply elem_of_app in Hx as [Hx|Hx].
      { rewrite Forall_forall in Hpre. by apply (Hpre x Hx). }
      apply elem_of_cons in Hx as [->|Hx]; [lia|].
      specialize (Hafter x Hx). unfold before in Hafter.
      pose proof (begin_le_end r). lia.
    - assert (goto_regions v = reverse post ++ r :: reverse pre) as Hregions.
      { rewrite <- (reverse_involutive (goto_regions v)), Hvisit, reverse_app, reverse_cons.
        by rewrite <- app_assoc. }
      assert (r ∈ goto_regions v) as Hin
        by (rewrite Hregions; apply elem_of_app; right; left).
      split; [done|].
      destruct Hr as [(Heq & _ & Hne')|Hlt]; [by repeat split|].
      exfalso. apply elem_of_reverse in Hx. rewrite Hvisit in Hx.
      rewrite Hregions in Hord.
      apply ordered_split in Hord as [Hbefore _]. rewrite Forall_forall in Hbefore.
      apply elem_of_app in Hx as [Hx|Hx].
      { rewrite Forall_forall in Hpre. by apply (Hpre x Hx). }
      apply elem_of_cons in Hx as [->|Hx]; [lia|].
      apply elem_of_reverse in Hx. specialize (Hbefore x Hx). unfold before in Hbefore.
      pose proof (begin_le_end r). lia. }
  split.
  { intros Hnone Hregions Hoff.
    pose proof (goto_error_no_wrap_report p v None direction) as Hreport.
    cbv zeta in Hreport. fold s in Hreport. rewrite Hanchor, Hs in Hreport.
    by apply Hreport. }
  intros v' Hgoto. apply goto_error_None_inv in Hgoto as (-> & Hnone & _).
  fold s in Hnone. rewrite Hanchor, Hs in Hnone.
  split; [exact Hnone|].
  fold s. rewrite Hs, Hempty. unfold report_no_more, sel_add_all. simpl.
  by rewrite sel_add_nil.
Qed.

Lemma goto_without_ranges_witness :
  sel origin_view = [] /\
  goto_error (H := merging_selection) (demo_persist false) origin_view None (lit "next")
    = (select_lint_region (H := merging_selection) origin_view (Region.make 0 3),
       Return (Some (Region.make 0 3))) /\
  goto_error (H := merging_selection) (demo_persist false) origin_view None (lit "previous")
    = (report_no_more (H := merging_selection) [Region.make 0 0] (lit "previous") origin_view,
       Return None) /\
  sel (goto_error (H := merging_selection) (demo_persist false) origin_view None
         (lit "previous")).1 = [Region.make 0 0].
Proof.
  split; [reflexivity|].
  destruct (goto_without_ranges (H := merging_selection) (demo_persist false) origin_view
              (lit "next") eq_refl) as (_ & _ & _ & _ & _ & _ & _ & Hedge & _).
  destruct (goto_without_ranges (H := merging_selection) (demo_persist false) origin_view
              (lit "previous") eq_refl) as (_ & _ & _ & _ & _ & _ & _ & _ & Hreport & Hfail).
  split.
  { destruct (Hedge (Region.make 0 3)) as (r & Hr & _ & Hbegin & Hgoto).
    - left.
    - vm_compute. discriminate.
    - reflexivity.
    - rewrite Hgoto. apply list_elem_of_In in Hr. vm_compute in Hr.
      destruct Hr as [<-|[<-|[]]]; [reflexivity|vm_compute in Hbegin; discriminate]. }
  assert (goto_error (H := merging_selection) (demo_persist false) origin_view None
            (lit "previous")
          = (report_no_more (H := merging_selection) [Region.make 0 0] (lit "previous")
               origin_view, Return None)) as Hgoto.
  { apply Hreport; [|vm_compute; discriminate|reflexivity].
    intros x Hx. apply list_elem_of_In in Hx. vm_compute in Hx.
    destruct Hx as [<-|[<-|[]]]; intros [(Heq & _)|Hlt]; vm_compute in *; discriminate. }
  split; [exact Hgoto|].
  exact (proj1 (proj2 (Hfail _ Hgoto))).
Defined.

(** ** Sorting *)

Section PySortFacts.
Context {A : Type} (lt : A -> A -> bool).

Lemma insert_sorted_perm (x : A) (l : list A) : insert_sorted lt x l ≡ₚ x :: l.
Proof.
  induction l as [|y l IH]; simpl; [done|].
  destruct (lt y x); [|done]. rewrite IH. apply Permutation_swap.
Qed.

Lemma py_sorted_perm (l : list A) : py_sorted lt l ≡ₚ l.
Proof.
  induction l as [|x l IH]; simpl; [done|].
  by rewrite insert_sorted_perm, IH.
Qed.

Hypothesis lt_asym : forall x y, lt x y = true -> lt y x = false.
Hypothesis not_after_trans : forall x y z, not_after lt x y -> not_after lt y z -> not_after lt x z.

Lemma insert_sorted_sorted (x : A) (l : list A) :
  StronglySorted (not_after lt) l -> StronglySorted (not_after lt) (insert_sorted lt x l).
Proof.
  induction 1 as [|y l Hl IH Hy]; simpl.
  - repeat constructor.
  - destruct (lt y x) eqn:Hyx.
    + constructor; [done|].
      rewrite insert_sorted_perm. constructor; [|done].
      by apply lt_asym.
    + constructor; [by constructor|].
      constructor; [done|].
      eapply Forall_impl; [exact Hy|]. intros z Hz.
      by apply (not_after_trans x y z).
Qed.

Lemma py_sorted_sorted (l : list A) : StronglySorted (not_after lt) (py_sorted lt l).
Proof.
  induction l as [|x l IH]; simpl; [constructor|].
  by apply insert_sorted_sorted.
Qed.
End PySortFacts.

Lemma strongly_sorted_weaken {A : Type} (R1 R2 : A -> A -> Prop) (l : list A) :
  (forall x y, R1 x y -> R2 x y) -> StronglySorted R1 l -> StronglySorted R2 l.
Proof.
  intros Himp. induction 1 as [|x l Hl IH Hx]; constructor; [done|].
  eapply Forall_impl; [exact Hx|]. intros y. apply Himp.
Qed.

Lemma sort_by_key_perm {A : Type} (key : A -> Z) (l : list A) : sort_by_key key l ≡ₚ l.
Proof. apply py_sorted_perm. Qed.

Lemma sort_by_key_sorted {A : Type} (key : A -> Z) (l : list A) :
  StronglySorted (fun x y => key x <= key y) (sort_by_key key l).
Proof.
  eapply strongly_sorted_weaken; [|apply py_sorted_sorted].
  - unfold not_after. intros x y Hxy. apply Z.ltb_ge in Hxy. exact Hxy.
  - intros x y Hxy. apply Z.ltb_lt in Hxy. apply Z.ltb_ge. lia.
  - unfold not_after. intros x y z Hxy Hyz.
    apply Z.ltb_ge in Hxy, Hyz. apply Z.ltb_ge. lia.
Qed.

(** ** Selecting the mark of a region *)

(** C4. [select_lint_region] leaves exactly one range in the selection,
    whatever it held.  The marks are tried in ascending order of begin, and
    the range is the first mark with [region.begin <= m.begin] and
    [m.end <= region.end], so of two marks within the region the one tried
    first wins; when no mark lies within the region, the range is the
    empty one at [region.begin]. *)
Theorem select_lint_region_selection `{Selection} (v : View) (region : Region) :
  let marks := sort_by_key Region.begin (warning_marks v ++ error_marks v) in
  marks ≡ₚ warning_marks v ++ error_marks v /\
  StronglySorted (fun x y => Region.begin x <= Region.begin y) marks /\
  ((exists pre m post,
      marks = pre ++ m :: post /\
      within region m /\
      Forall (fun y => ~ within region y) pre /\
      find_mark_within v region = Some m /\
      sel (select_lint_region v region) = [m])
   \/
   (Forall (fun y => ~ within region y) marks /\
    find_mark_within v region = None /\
    sel (select_lint_region v region)
      = [Region.make (Region.begin region) (Region.begin region)])).
Proof.
  intros marks.
  split; [apply sort_by_key_perm|]. split; [apply sort_by_key_sorted|].
  unfold select_lint_region. simpl. rewrite sel_add_nil.
  assert (find_mark_within (set_sel [] v) region = find_mark_within v region) as -> by done.
  unfold find_mark_within. fold marks.
  destruct (List.find _ marks) as [m|] eqn:Hfind.
  - left. destruct (find_first _ _ _ Hfind) as (pre & post & Hsplit & Hm & Hpre).
    exists pre, m, post. split; [done|]. split; [by apply contains_within|].
    split; [|done].
    eapply Forall_impl; [exact Hpre|]. intros y Hy Hin.
    apply contains_within in Hin. simpl in Hy. by rewrite Hin in Hy.
  - right. split; [|done].
    apply Forall_forall. intros y Hy Hin. apply contains_within in Hin.
    destruct (find_is_Some (fun mark => Region.contains region mark) _ _ Hy Hin)
      as [m Hm].
    congruence.
Qed.

Example containment_precedence :
  find_mark_within
    {| view_id := 1; sel := []; warning_marks := [Region.make 3 8];
       error_marks := [Region.make 0 5]; full_line := fun _ => [];
       centered := []; dialogs := [] |}
    (Region.make 0 10) = Some (Region.make 0 5).
Proof. reflexivity. Qed.

(** ** Python's order on tuples and lists *)

Section StrictTotal.
Context {A : Type} (lt : A -> A -> bool) (Hlt : strict_total lt).

Lemma st_asym (x y : A) : lt x y = true -> lt y x = false.
Proof.
  intros Hxy. destruct (lt y x) eqn:Hyx; [|done].
  by rewrite <- (st_irrefl lt Hlt x), (st_trans lt Hlt x y x Hxy Hyx).
Qed.

Lemma st_not_after_trans (x y z : A) :
  not_after lt x y -> not_after lt y z -> not_after lt x z.
Proof.
  unfold not_after. intros Hyx Hzy.
  destruct (lt z x) eqn:Hzx; [|done].
  destruct (lt x y) eqn:Hxy.
  - by rewrite (st_trans lt Hlt z x y Hzx Hxy) in Hzy.
  - assert (x = y) as -> by by apply (st_total lt Hlt). congruence.
Qed.

Lemma st_not_after_antisym (x y : A) : not_after lt x y -> not_after lt y x -> x = y.
Proof. unfold not_after. intros Hyx Hxy. by apply (st_total lt Hlt). Qed.

Lemma py_sorted_unique (l1 l2 : list A) : l1 ≡ₚ l2 -> py_sorted lt l1 = py_sorted lt l2.
Proof.
  intros Hperm.
  apply (StronglySorted_unique_strong (not_after lt)).
  - intros x y _ _. apply st_not_after_antisym.
  - apply py_sorted_sorted; [apply st_asym|apply st_not_after_trans].
  - apply py_sorted_sorted; [apply st_asym|apply st_not_after_trans].
  - by rewrite !py_sorted_perm.
Qed.
End StrictTotal.

Lemma Z_ltb_strict_total : strict_total Z.ltb.
Proof.
  split.
  - intros x. apply Z.ltb_irrefl.
  - intros x y z. rewrite !Z.ltb_lt. lia.
  - intros x y. rewrite !Z.ltb_ge. lia.
Qed.

Lemma N_ltb_strict_total : strict_total N.ltb.
Proof.
  split.
  - intros x. apply N.ltb_irrefl.
  - intros x y z. rewrite !N.ltb_lt. lia.
  - intros x y. rewrite !N.ltb_ge. lia.
Qed.

Lemma tuple_lt_strict_total {A B : Type} `{EqDecision A}
    (ltA : A -> A -> bool) (ltB : B -> B -> bool) :
  strict_total ltA -> strict_total ltB -> strict_total (tuple_lt ltA ltB).
Proof.
  intros HA HB. split.
  - intros [a b]. unfold tuple_lt. simpl. rewrite bool_decide_eq_true_2 by done.
    apply (st_irrefl ltB HB).
  - intros [a1 b1] [a2 b2] [a3 b3]. unfold tuple_lt. simpl.
    repeat case_bool_decide; subst; try done.
    + apply (st_trans ltB HB).
    + intros H12 H21. by rewrite (st_asym ltA HA _ _ H12) in H21.
    + apply (st_trans ltA HA).
  - intros [a1 b1] [a2 b2]. unfold tuple_lt. simpl.
    repeat case_bool_decide; subst; try done.
    + intros H12 H21. f_equal. by apply (st_total ltB HB).
    + intros H12 H21. by destruct (st_total ltA HA a1 a2).
Qed.

Lemma list_lt_strict_total {A : Type} `{EqDecision A} (ltA : A -> A -> bool) :
  strict_total ltA -> strict_total (list_lt ltA).
Proof.
  intros HA. split.
  - intros l. induction l as [|x l IH]; simpl; [done|].
    by rewrite bool_decide_eq_true_2.
  - intros l1. induction l1 as [|x l1 IH]; intros [|y l2] [|z l3]; simpl; try done.
    repeat case_bool_decide; subst; try done.
    + apply IH.
    + intros H12 H21. by rewrite (st_asym ltA HA _ _ H12) in H21.
    + apply (st_trans ltA HA).
  - intros l1. induction l1 as [|x l1 IH]; intros [|y l2]; simpl; try done.
    repeat case_bool_decide; subst; try done.
    + intros H12 H21. f_equal. by apply IH.
    + intros H12 H21. by destruct (st_total ltA HA x y).
Qed.

Lemma message_lt_strict_total : strict_total message_lt.
Proof.
  apply tuple_lt_strict_total; [apply Z_ltb_strict_total|].
  apply list_lt_strict_total, N_ltb_strict_total.
Qed.

Lemma item_lt_strict_total : strict_total item_lt.
Proof.
  apply tuple_lt_strict_total; [apply Z_ltb_strict_total|].
  apply list_lt_strict_total, message_lt_strict_total.
Qed.

(** ** The order of the quick panel *)

Lemma sorted_messages_rows (lineno : Z) (messages : list message) :
  StronglySorted row_le (map (pair lineno) (py_sorted message_lt messages)).
Proof.
  pose proof (py_sorted_sorted message_lt
                (st_asym _ message_lt_strict_total)
                (st_not_after_trans _ message_lt_strict_total) messages) as Hsorted.
  induction Hsorted as [|m l Hl IH Hm]; simpl; constructor; [done|].
  apply Forall_map. eapply Forall_impl; [exact Hm|].
  intros m' Hmm'. unfold row_le, str_le. simpl. right. split; [done|].
  unfold not_after, message_lt, tuple_lt in Hmm'.
  case_bool_decide as Hcol.
  - right. by split.
  - left. apply Z.ltb_ge in Hmm'. lia.
Qed.

Lemma sorted_items_lines (items : list (Z * list message)) :
  NoDup items.*1 ->
  StronglySorted (not_after item_lt) items ->
  StronglySorted (fun i1 i2 => i1.1 < i2.1) items.
Proof.
  intros Hnodup Hsorted.
  induction Hsorted as [|i l Hl IH Hi]; [constructor|].
  rewrite fmap_cons in Hnodup. apply NoDup_cons in Hnodup as [Hfresh Hnodup].
  constructor; [by apply IH|].
  apply Forall_forall. intros j Hj.
  assert (j.1 <> i.1) as Hne.
  { intros Heq. apply Hfresh. rewrite <- Heq. by apply list_elem_of_fmap_2. }
  rewrite Forall_forall in Hi. specialize (Hi j Hj).
  unfold not_after, item_lt, tuple_lt in Hi.
  rewrite bool_decide_eq_false_2 in Hi by done.
  apply Z.ltb_ge in Hi. lia.
Qed.

Lemma visited_line_line (item : Z * list message) (e : Z * message) :
  e ∈ visited_line item <-> e.1 = item.1 /\ e.2 ∈ item.2.
Proof.
  destruct item as [lineno messages], e as [l m]. simpl.
  rewrite list_elem_of_fmap. setoid_rewrite py_sorted_perm. split.
  - by intros (m' & [= -> ->] & Hm).
  - intros [-> Hm]. by exists m.
Qed.

Lemma flat_rows_sorted (items : list (Z * list message)) :
  StronglySorted (fun i1 i2 => i1.1 < i2.1) items ->
  StronglySorted row_le (flat_map visited_line items).
Proof.
  induction 1 as [|i l Hl IH Hi]; simpl; [constructor|].
  apply StronglySorted_app_2; [|destruct i; apply sorted_messages_rows|done].
  intros e1 e2 He1 He2.
  apply visited_line_line in He1 as [He1 _].
  apply list_elem_of_In, in_flat_map in He2 as (j & Hj & He2).
  apply list_elem_of_In in Hj, He2.
  apply visited_line_line in He2 as [He2 _].
  rewrite Forall_forall in Hi. specialize (Hi j Hj).
  left. lia.
Qed.

(** C6. The rows of the quick panel come in ascending order of line, then
    column, then message text; they are the diagnostics of the error map,
    each line's messages under its line; and the order in which the error
    map hands out its items does not show in the result: every enumeration
    of the same map gives the same rows. *)
Theorem quick_panel_order (v : View) (errs : ErrorMap) :
  let rows := visited (map_to_list errs) in
  StronglySorted row_le rows /\
  show_all_errors v errs = (map error_info_of rows, map (option_of v) rows) /\
  (forall e, e ∈ rows <-> exists messages, errs !! e.1 = Some messages /\ e.2 ∈ messages) /\
  (forall items, items ≡ₚ map_to_list errs ->
     show_all_errors_items v items = show_all_errors v errs).
Proof.
  intros rows. split; [|split; [done|split]].
  - subst rows. apply flat_rows_sorted, sorted_items_lines.
    + rewrite py_sorted_perm. apply NoDup_fst_map_to_list.
    + apply py_sorted_sorted.
      * apply st_asym, item_lt_strict_total.
      * apply st_not_after_trans, item_lt_strict_total.
  - intros e. subst rows. unfold visited. split.
    + intros He. apply list_elem_of_In, in_flat_map in He as (i & Hi & He).
      apply list_elem_of_In in Hi, He. rewrite py_sorted_perm in Hi.
      apply visited_line_line in He as [Hline Hm].
      exists i.2. split; [|done]. rewrite Hline.
      apply elem_of_map_to_list. by destruct i.
    + intros (messages & Hlookup & Hm).
      apply list_elem_of_In, in_flat_map. exists (e.1, messages). split.
      * apply list_elem_of_In. rewrite py_sorted_perm. by apply elem_of_map_to_list.
      * apply list_elem_of_In, visited_line_line. by split.
  - intros items Hperm. unfold show_all_errors, show_all_errors_items, visited.
    by rewrite (py_sorted_unique item_lt item_lt_strict_total _ _ Hperm).
Qed.


(** ** The line of the quick panel *)

Lemma lstrip_chars_split (strip : char -> bool) (s : str) :
  exists ws, s = ws ++ lstrip_chars strip s /\ Forall (fun c => strip c = true) ws.
Proof.
  induction s as [|c s (ws & Hs & Hws)]; simpl.
  - by exists [].
  - destruct (strip c) eqn:Hc.
    + exists (c :: ws). split; [simpl; by f_equal|by constructor].
    + by exists [].
Qed.

Lemma slice_nonneg {A : Type} (s : list A) (i : Z) :
  0 <= i ->
  slice_to s i = take (Z.to_nat i) s /\ slice_from s i = drop (Z.to_nat i) s.
Proof.
  intros Hi. unfold slice_to, slice_from, slice_index.
  destruct (Z.ltb_spec i 0) as [|_]; [lia|].
  destruct (Z.le_gt_cases i (Z.of_nat (length s))) as [Hle|Hgt].
  - by rewrite Z.min_l.
  - rewrite Z.min_r, Nat2Z.id by lia.
    rewrite !firstn_all, !drop_all, take_ge, drop_ge by lia. done.
Qed.

Lemma slice_negative {A : Type} (s : list A) (i : Z) :
  i < 0 ->
  slice_to s i = take (Z.to_nat (Z.of_nat (length s) + i)) s /\
  slice_from s i = drop (Z.to_nat (Z.of_nat (length s) + i)) s.
Proof.
  intros Hi. unfold slice_to, slice_from, slice_index.
  destruct (Z.ltb_spec i 0) as [_|]; [|lia].
  by replace (Z.to_nat (Z.max 0 (Z.of_nat (length s) + i)))
    with (Z.to_nat (Z.of_nat (length s) + i)) by lia.
Qed.

Lemma splice_at_lookup (k : nat) (s : str) :
  (k <= length s)%nat -> splice_at k s !! k = Some arrow.
Proof.
  intros Hk. unfold splice_at.
  rewrite lookup_app_r by (rewrite length_take; lia).
  rewrite length_take. by replace (k - k `min` length s)%nat with 0%nat by lia.
Qed.

Lemma code_line_long (line : str) (diff column : Z) (text : str) :
  40 < column - diff ->
  code_line line diff (column, text)
    = splice_at 43 (lit "..." ++ drop (Z.to_nat (column - diff - 40)) line).
Proof.
  intros Hc. unfold code_line, visible, max_prefix_len. cbn [fst].
  destruct (Z.gtb_spec (column - diff) 40) as [_|]; [|lia].
  cbv beta iota zeta.
  destruct (slice_nonneg line (column - diff - 40)) as [_ ->]; [lia|].
  by destruct (slice_nonneg (lit "..." ++ drop (Z.to_nat (column - diff - 40)) line) (40 + 3))
    as [-> ->].
Qed.

Lemma code_line_short (line : str) (diff column : Z) (text : str) :
  column - diff <= 40 ->
  code_line line diff (column, text)
    = slice_to line (column - diff) ++ [arrow] ++ slice_from line (column - diff).
Proof.
  intros Hc. unfold code_line, visible, max_prefix_len. cbn [fst].
  by destruct (Z.gtb_spec (column - diff) 40) as [|_]; [lia|].
Qed.

(** C5. The second column of a row of the quick panel, for a message at
    [column] on a line that lost [diff] characters on the left.  With
    [c = column - diff]: when [c > 40], it is ["..."] followed by the
    stripped line from position [c - 40] on, with the arrow put in at
    position 43 (and the arrow is the character at 43 whenever the column
    lies on the line); when [c <= 40], it is the whole stripped line with the
    arrow put in at index [c], which is position [c] of the line for
    [0 <= c] and, as for any negative index of a slice, [c] counted back from
    the end of the line otherwise.  [diff] is the number of white characters
    taken off the front of the line. *)
Theorem quick_panel_code (v : View) (lineno column : Z) (text : str) :
  let line := (stripped_line v lineno).1 in
  let diff := (stripped_line v lineno).2 in
  let c := column - diff in
  let code := (option_of v (lineno, (column, text))).2 in
  (exists ws, rstrip_chars is_newline (full_line v lineno) = ws ++ line /\
              diff = Z.of_nat (length ws) /\ Forall (fun ch => is_space ch = true) ws) /\
  (40 < c ->
     code = splice_at 43 (lit "..." ++ drop (Z.to_nat (c - 40)) line) /\
     take 3 code = lit "..." /\
     (c <= Z.of_nat (length line) -> code !! 43%nat = Some arrow)) /\
  (c <= 40 ->
     code = slice_to line c ++ [arrow] ++ slice_from line c /\
     (0 <= c ->
        code = splice_at (Z.to_nat c) line /\
        (c <= Z.of_nat (length line) -> code !! Z.to_nat c = Some arrow)) /\
     (c < 0 -> code = splice_at (Z.to_nat (Z.of_nat (length line) + c)) line)).
Proof.
  intros line diff c code.
  assert (code = code_line line diff (column, text)) as Hcode by done.
  split.
  { subst line diff. unfold stripped_line. simpl.
    destruct (lstrip_chars_split is_space (rstrip_chars is_newline (full_line v lineno)))
      as (ws & Hsplit & Hws).
    exists ws. split; [done|]. split; [|done].
    rewrite Hsplit at 1. rewrite length_app. unfold lstrip. lia. }
  split.
  - intros Hc. rewrite (code_line_long line diff column text Hc) in Hcode. fold c in Hcode.
    split; [done|]. split; [by rewrite Hcode|].
    intros Hlen. rewrite Hcode. apply splice_at_lookup.
    rewrite length_app, length_drop. simpl. lia.
  - intros Hc. rewrite (code_line_short line diff column text Hc) in Hcode. fold c in Hcode.
    split; [done|]. split.
    + intros Hc0. destruct (slice_nonneg line c Hc0) as [Hto Hfrom].
      rewrite Hto, Hfrom in Hcode. split; [done|].
      intros Hlen. rewrite Hcode. apply splice_at_lookup. lia.
    + intros Hc0. destruct (slice_negative line c Hc0) as [Hto Hfrom].
      by rewrite Hto, Hfrom in Hcode.
Qed.

Example truncation_boundary :
  let line := lit "0123456789012345678901234567890123456789abcdefghij" in
  code_line line 0 (41, []) = lit "...123456789012345678901234567890123456789a" ++ [arrow] ++ lit "bcdefghij" /\
  code_line line 0 (40, []) = lit "0123456789012345678901234567890123456789" ++ [arrow] ++ lit "abcdefghij".
Proof. split; reflexivity. Qed.

(** ** A column in the stripped indentation *)

(** C8. On the line ["    x = y  # comment"], which loses four characters
    on the left, a message at column 2 has the adjusted column [-2].  The
    line is not truncated, but the arrow is not at position 0 of the row: it
    stands two characters before the end of the line. *)
Theorem negative_column_arrow :
  let v := {| view_id := 7; sel := []; warning_marks := []; error_marks := [];
              full_line := fun _ => lit "    x = y  # comment" ++ [10%N];
              centered := []; dialogs := [] |} in
  let code := (option_of v (4, (2, lit "unused import"))).2 in
  stripped_line v 4 = (lit "x = y  # comment", 4) /\
  code = lit "x = y  # comme" ++ [arrow] ++ lit "nt" /\
  code = splice_at 14 (lit "x = y  # comment") /\
  code <> splice_at 0 (lit "x = y  # comment").
Proof. repeat split; try reflexivity. vm_compute. discriminate. Qed.

(** * Further properties of the commands *)

(** ** What a successful search leaves behind *)

Section GotoResult.
Context `{Selection}.

Lemma scan_elem_of (d : str) (pt : Z) (es : bool) (regions : list Region) (r : Region) :
  scan d pt es regions = Some r -> r ∈ regions.
Proof.
  unfold scan. destruct (is_next d); intros Hfind;
    destruct (find_first _ _ _ Hfind) as (pre & post & Hsplit & _).
  - rewrite Hsplit. apply elem_of_app. right. left.
  - apply elem_of_reverse. rewrite Hsplit. apply elem_of_app. right. left.
Qed.

Lemma scan_eligible (d : str) (pt : Z) (s regions : list Region) (r : Region) :
  scan d pt (empty_selection_of s) regions = Some r -> eligible d pt s r.
Proof.
  unfold scan, eligible, is_next. destruct (bool_decide (d = lit "next")); intros Hfind;
    destruct (find_first _ _ _ Hfind) as (pre & post & _ & Hr & _).
  - by apply next_match_eligible.
  - by apply previous_match_eligible.
Qed.

Lemma scan_not_eligible (d : str) (pt : Z) (s regions : list Region) :
  scan d pt (empty_selection_of s) regions = None ->
  forall x, x ∈ regions -> ~ eligible d pt s x.
Proof.
  unfold scan, eligible, is_next. intros Hscan x Hx.
  destruct (bool_decide (d = lit "next")); intros Hel.
  - apply next_match_eligible in Hel.
    destruct (find_is_Some _ _ _ Hx Hel) as [r Hr]. congruence.
  - apply previous_match_eligible in Hel. apply elem_of_reverse in Hx.
    destruct (find_is_Some _ _ _ Hx Hel) as [r Hr]. congruence.
Qed.

(** The three ways a call can end, with the view each one leaves. *)
Lemma goto_error_cases (p : Persist) (v : View) (point : option Z) (d : str) :
  let s := sel (ensure_selection v) in
  let pt := anchor_of point d s in
  let regions := goto_regions v in
  (exists r, r ∈ regions /\
     (eligible d pt s r \/
      (get_wrap_find p = true /\ (forall x, x ∈ regions -> ~ eligible d pt s x) /\
       (if is_next d then head regions else last regions) = Some r)) /\
     goto_error p v point d = (select_lint_region v r, Return (Some r)))
  \/ (regions <> [] /\ goto_error p v point d = (report_no_more s d v, Return None))
  \/ (regions = [] /\
      goto_error p v point d = (set_sel [] (ensure_selection v), Raise IndexError)).
Proof.
  intros s pt regions.
  destruct (scan d pt (empty_selection_of s) regions) as [r|] eqn:Hscan.
  { left. exists r. split; [by eapply scan_elem_of|].
    split; [left; by eapply scan_eligible|]. by apply goto_error_found. }
  pose proof (scan_not_eligible _ _ _ _ Hscan) as Hnone.
  rewrite (goto_error_not_found p v point d Hscan). fold s pt regions.
  destruct regions as [|first tl] eqn:Hregions.
  { right. right. by split. }
  assert (is_Some (last (first :: tl))) as [last_ Hlast] by (by apply last_is_Some).
  destruct (may_wrap_spec d pt (first :: tl) first last_ eq_refl Hlast)
    as (wrap & -> & Htarget & _).
  destruct (wrap && get_wrap_find p) eqn:Hwrap.
  - left. rewrite Htarget. exists (if is_next d then first else last_).
    apply andb_true_iff in Hwrap as [_ Hwrap].
    split.
    { destruct (is_next d); [left|by apply last_Some_elem_of]. }
    split; [|done]. right. split; [done|]. split; [done|].
    destruct (is_next d); [done|exact Hlast].
  - right. left. by split.
Qed.

Lemma select_lint_region_within (v : View) (r : Region) :
  exists m, sel (select_lint_region v r) = [m] /\ within r m /\
            centered (select_lint_region v r) = centered v ++ [m] /\
            dialogs (select_lint_region v r) = dialogs v /\
            (m ∈ warning_marks v ++ error_marks v \/
             m = Region.make (Region.begin r) (Region.begin r)).
Proof.
  unfold select_lint_region. simpl. rewrite sel_add_nil.
  assert (find_mark_within (set_sel [] v) r = find_mark_within v r) as -> by done.
  unfold find_mark_within.
  destruct (List.find _ _) as [m|] eqn:Hfind.
  - exists m. destruct (find_first _ _ _ Hfind) as (pre & post & Hsplit & Hm & _).
    split; [done|]. split; [by apply contains_within|]. split; [done|]. split; [done|].
    left. rewrite <- (sort_by_key_perm Region.begin), Hsplit.
    apply elem_of_app. right. left.
  - eexists. split; [done|]. split; [|by auto].
    pose proof (begin_le_end r). unfold within, Region.begin at 2, Region.end_ at 1. simpl.
    rewrite Z.ltb_irrefl. lia.
Qed.

End GotoResult.

(** X1. A call that returns a region returns one of the regions of the
    search, and leaves as the selection a single range that lies within that
    region: a mark of the view, or the empty range at the begin of the
    region.  The view is scrolled to that range and no message is shown. *)
Theorem goto_selects_within_region `{Selection}
    (p : Persist) (v v' : View) (point : option Z) (direction : str) (r : Region) :
  goto_error p v point direction = (v', Return (Some r)) ->
  r ∈ goto_regions v /\
  exists m, sel v' = [m] /\ within r m /\
            (m ∈ warning_marks v ++ error_marks v \/
             m = Region.make (Region.begin r) (Region.begin r)) /\
            centered v' = centered v ++ [m] /\
            dialogs v' = dialogs v.
Proof.
  intros Hgoto.
  destruct (goto_error_cases p v point direction)
    as [(r' & Hr' & _ & Heq)|[[_ Heq]|[_ Heq]]]; rewrite Heq in Hgoto; [|done..].
  injection Hgoto as <- <-. split; [done|].
  destruct (select_lint_region_within v r') as (m & Hsel & Hwithin & Hcentered & Hdialogs & Hm).
  by exists m.
Qed.

Lemma goto_selects_within_region_witness :
  let v := demo_view [Region.make 4 4] in
  let r := Region.make 10 15 in
  goto_error (H := merging_selection) (demo_persist true) v None (lit "next")
    = (select_lint_region (H := merging_selection) v r, Return (Some r)) /\
  r ∈ goto_regions (H := merging_selection) v /\
  exists m, sel (select_lint_region (H := merging_selection) v r) = [m] /\ within r m.
Proof.
  intros v r.
  assert (goto_error (H := merging_selection) (demo_persist true) v None (lit "next")
            = (select_lint_region (H := merging_selection) v r, Return (Some r))) as Hgoto
    by reflexivity.
  split; [exact Hgoto|].
  destruct (goto_selects_within_region (H := merging_selection) (demo_persist true) v _ None
              (lit "next") r Hgoto) as (Hr & m & Hsel & Hwithin & _).
  split; [exact Hr|]. exists m. by split.
Defined.

(** X2. A region that is returned either qualifies in the direction of the
    search, or nothing qualifies, [wrap_find] is on and the region is the
    first one (going to the next error) or the last one (going to the previous
    one).  So with [wrap_find] off the search never goes back over the
    anchor: the region begins at or after it going forward, and ends at or
    before it going backward. *)
Theorem goto_result_qualifies_or_wraps `{Selection}
    (p : Persist) (v v' : View) (point : option Z) (direction : str) (r : Region) :
  let s := sel (ensure_selection v) in
  let pt := anchor_of point direction s in
  let regions := goto_regions v in
  goto_error p v point direction = (v', Return (Some r)) ->
  (eligible direction pt s r \/
   (get_wrap_find p = true /\
    (forall x, x ∈ regions -> ~ eligible direction pt s x) /\
    (if bool_decide (direction = lit "next") then head regions else last regions) = Some r))
  /\
  (get_wrap_find p = false ->
   if bool_decide (direction = lit "next") then pt <= Region.begin r
   else Region.end_ r <= pt).
Proof.
  intros s pt regions Hgoto.
  destruct (goto_error_cases p v point direction)
    as [(r' & Hr' & Hwhy & Heq)|[[_ Heq]|[_ Heq]]]; rewrite Heq in Hgoto; [|done..].
  injection Hgoto as _ <-. fold s pt regions in Hwhy. split; [exact Hwhy|].
  intros Hoff. destruct Hwhy as [Hel|(Hon & _)]; [|congruence].
  unfold eligible, next_eligible, previous_eligible in Hel.
  destruct (bool_decide (direction = lit "next")); destruct Hel as [(-> & _)|Hlt]; lia.
Qed.

Lemma goto_result_qualifies_or_wraps_witness :
  let v := demo_view [Region.make 21 23] in
  let r := Region.make 2 6 in
  goto_error (H := merging_selection) (demo_persist true) v None (lit "next")
    = (select_lint_region (H := merging_selection) v r, Return (Some r)) /\
  get_wrap_find (demo_persist true) = true /\
  head (goto_regions (H := merging_selection) v) = Some r.
Proof.
  intros v r.
  assert (goto_error (H := merging_selection) (demo_persist true) v None (lit "next")
            = (select_lint_region (H := merging_selection) v r, Return (Some r))) as Hgoto
    by reflexivity.
  split; [exact Hgoto|].
  destruct (goto_result_qualifies_or_wraps (H := merging_selection) (demo_persist true) v _
              None (lit "next") r Hgoto) as [[Hel|(Hon & _ & Hfirst)] _].
  - exfalso. destruct Hel as [(Heq & _)|Hlt]; vm_compute in *; discriminate.
  - by split.
Defined.

(** X3. Whatever the outcome, a call leaves the marks and the text of the
    view alone.  It scrolls only when it returns a region and shows a message
    only when it returns none.  When it raises, which it does only without
    regions, nothing is shown and the selection of the view is left empty:
    the ranges the user had are gone. *)
Theorem goto_error_frame `{Selection}
    (p : Persist) (v : View) (point : option Z) (direction : str) :
  let v' := (goto_error p v point direction).1 in
  view_id v' = view_id v /\
  warning_marks v' = warning_marks v /\
  error_marks v' = error_marks v /\
  full_line v' = full_line v /\
  match (goto_error p v point direction).2 with
  | Return (Some _) =>
      dialogs v' = dialogs v /\ exists m, sel v' = [m] /\ centered v' = centered v ++ [m]
  | Return None =>
      centered v' = centered v /\
      dialogs v' = dialogs v ++ [lit "No " ++ direction ++ lit " lint error."]
  | Raise _ =>
      centered v' = centered v /\ dialogs v' = dialogs v /\
      sel v' = [] /\ goto_regions v = []
  end.
Proof.
  intros v'. subst v'.
  destruct (goto_error_cases p v point direction)
    as [(r & _ & _ & ->)|[[_ ->]|[Hregions ->]]]; simpl.
  - destruct (select_lint_region_within v r) as (m & Hsel & _ & Hcentered & Hdialogs & _).
    repeat split; try done. by exists m.
  - done.
  - unfold ensure_selection. by destruct (bool_decide _).
Qed.

(** X4. The direction matters only through the test [direction == 'next']:
    any two other values of it return the same region and leave the same
    selection and scroll position, that of a search backwards. *)
Theorem goto_other_directions_agree `{Selection}
    (p : Persist) (v : View) (point : option Z) (d d' : str) :
  d <> lit "next" -> d' <> lit "next" ->
  (goto_error p v point d).2 = (goto_error p v point d').2 /\
  sel (goto_error p v point d).1 = sel (goto_error p v point d').1 /\
  centered (goto_error p v point d).1 = centered (goto_error p v point d').1.
Proof.
  intros Hd Hd'.
  assert (is_next d = false) as Hn by (by apply bool_decide_eq_false_2).
  assert (is_next d' = false) as Hn' by (by apply bool_decide_eq_false_2).
  unfold goto_error, anchor, scan. rewrite Hn, Hn'.
  repeat case_match; simplify_eq; done.
Qed.

Lemma goto_other_directions_agree_witness :
  lit "previous" <> lit "next" /\ lit "Next" <> lit "next" /\
  (goto_error (H := merging_selection) (demo_persist true) (demo_view [Region.make 12 18])
     None (lit "previous")).2
  = (goto_error (H := merging_selection) (demo_persist true) (demo_view [Region.make 12 18])
       None (lit "Next")).2.
Proof.
  assert (lit "previous" <> lit "next") as Hd by (vm_compute; discriminate).
  assert (lit "Next" <> lit "next") as Hd' by (vm_compute; discriminate).
  split; [exact Hd|]. split; [exact Hd'|].
  exact (proj1 (goto_other_directions_agree (H := merging_selection) (demo_persist true)
                  (demo_view [Region.make 12 18]) None _ _ Hd Hd')).
Defined.

(** ** Which mark wins *)

Lemma insert_sorted_same_key {A : Type} (key : A -> Z) (k : Z) (x : A) (l : list A) :
  filter (fun y => key y = k) (insert_sorted (fun a b => key a <? key b) x l)
  = filter (fun y => key y = k) (x :: l).
Proof.
  induction l as [|y l IH]; simpl; [done|].
  destruct (Z.ltb_spec (key y) (key x)) as [Hlt|Hge]; [|done].
  rewrite (filter_cons _ y), IH, !filter_cons.
  repeat case_decide; (done || lia).
Qed.

(** The sort is stable: the elements of one key keep their order. *)
Lemma sort_by_key_stable {A : Type} (key : A -> Z) (k : Z) (l : list A) :
  filter (fun y => key y = k) (sort_by_key key l) = filter (fun y => key y = k) l.
Proof.
  unfold sort_by_key. induction l as [|x l IH]; simpl; [done|].
  rewrite insert_sorted_same_key, !filter_cons. by rewrite IH.
Qed.

Lemma filter_split {A : Type} (P : A -> Prop) `{forall x, Decision (P x)}
    (l a b : list A) (m : A) :
  filter P l = a ++ m :: b ->
  exists l1 l2, l = l1 ++ m :: l2 /\ filter P l1 = a /\ filter P l2 = b.
Proof.
  revert a. induction l as [|x l IH]; intros a Hl.
  - by destruct a.
  - rewrite filter_cons in Hl. destruct (decide (P x)) as [Hx|Hx].
    + destruct a as [|x' a]; simpl in Hl.
      * injection Hl as -> Hl. by exists [], l.
      * injection Hl as <- Hl. destruct (IH a Hl) as (l1 & l2 & -> & <- & <-).
        exists (x :: l1), l2. split; [done|]. split; [|done].
        rewrite filter_cons. by destruct (decide (P x)).
    + destruct (IH a Hl) as (l1 & l2 & -> & <- & <-).
      exists (x :: l1), l2. split; [done|]. split; [|done].
      rewrite filter_cons. by destruct (decide (P x)).
Qed.

(** X5. The mark that [find_mark_within] returns lies within the region and
    begins first among the marks that do.  Among the marks within the region
    that begin where it begins, it is the one that comes first in the
    warning marks followed by the error marks: when a warning mark and an
    error mark within the region begin at that offset, a warning mark
    wins. *)
Theorem find_mark_within_first (v : View) (region m : Region) :
  let marks := warning_marks v ++ error_marks v in
  find_mark_within v region = Some m ->
  within region m /\
  (forall m', m' ∈ marks -> within region m' -> Region.begin m <= Region.begin m') /\
  (exists l1 l2, marks = l1 ++ m :: l2 /\
     forall x, x ∈ l1 -> within region x -> Region.begin m < Region.begin x) /\
  (forall w, w ∈ warning_marks v -> within region w -> Region.begin w = Region.begin m ->
     m ∈ warning_marks v).
Proof.
  intros marks Hfind. unfold find_mark_within in Hfind. fold marks in Hfind.
  destruct (find_first _ _ _ Hfind) as (pre & post & Hsplit & Hm & Hpre).
  apply contains_within in Hm.
  assert (forall x, x ∈ pre -> ~ within region x) as Hpre'.
  { intros x Hx Hin. rewrite Forall_forall in Hpre. specialize (Hpre x Hx). simpl in Hpre.
    apply contains_within in Hin. congruence. }
  assert (forall m', m' ∈ marks -> within region m' -> Region.begin m <= Region.begin m')
    as Hleast.
  { intros m' Hm' Hin.
    rewrite <- (sort_by_key_perm Region.begin), Hsplit in Hm'.
    pose proof (sort_by_key_sorted Region.begin marks) as Hsorted.
    rewrite Hsplit in Hsorted. apply StronglySorted_app in Hsorted as (_ & _ & Hsorted).
    apply StronglySorted_inv in Hsorted as [_ Hpost]. rewrite Forall_forall in Hpost.
    apply elem_of_app in Hm' as [Hm'|Hm']; [by destruct (Hpre' m')|].
    apply elem_of_cons in Hm' as [->|Hm']; [lia|by apply Hpost]. }
  assert (exists l1 l2, marks = l1 ++ m :: l2 /\
            forall x, x ∈ l1 -> within region x -> Region.begin m < Region.begin x)
    as (l1 & l2 & Hmarks & Hl1).
  { pose proof (sort_by_key_stable Region.begin (Region.begin m) marks) as Hstable.
    rewrite Hsplit, filter_app, filter_cons in Hstable.
    destruct (decide (Region.begin m = Region.begin m)) as [_|]; [|done].
    symmetry in Hstable. apply filter_split in Hstable as (l1 & l2 & Hmarks & Hl1 & _).
    exists l1, l2. split; [done|]. intros x Hx Hin.
    assert (Region.begin m <= Region.begin x) as Hle.
    { apply Hleast; [|done]. rewrite Hmarks. apply elem_of_app. by left. }
    destruct (decide (Region.begin x = Region.begin m)) as [Heq|]; [|lia].
    exfalso. apply (Hpre' x); [|done].
    assert (x ∈ filter (fun y => Region.begin y = Region.begin m) l1) as Hx'
      by (by apply list_elem_of_filter).
    rewrite Hl1 in Hx'. by apply list_elem_of_filter in Hx' as [_ Hx']. }
  split; [done|]. split; [done|]. split; [by exists l1, l2|].
  intros w Hw Hin Heq. subst marks.
  apply app_eq_inv in Hmarks as [(k & Hwarn & Hrest)|(k & Hl1k & _)].
  - destruct k as [|m0 k].
    + rewrite app_nil_r in Hwarn. subst l1. specialize (Hl1 w Hw Hin). lia.
    + simpl in Hrest. injection Hrest as <- _. rewrite Hwarn.
      apply elem_of_app. right. left.
  - assert (w ∈ l1) as Hw' by (rewrite Hl1k; apply elem_of_app; by left).
    specialize (Hl1 w Hw' Hin). lia.
Qed.

Lemma find_mark_within_first_witness :
  let v := {| view_id := 1; sel := [];
              warning_marks := [Region.make 3 8; Region.make 0 4];
              error_marks := [Region.make 0 5];
              full_line := fun _ => []; centered := []; dialogs := [] |} in
  find_mark_within v (Region.make 0 10) = Some (Region.make 0 4) /\
  Region.make 0 4 ∈ warning_marks v.
Proof.
  intros v.
  assert (find_mark_within v (Region.make 0 10) = Some (Region.make 0 4)) as Hfind
    by reflexivity.
  split; [exact Hfind|].
  destruct (find_mark_within_first v (Region.make 0 10) (Region.make 0 4) Hfind)
    as (_ & _ & _ & Hwarning).
  apply (Hwarning (Region.make 0 4)).
  - right. left.
  - vm_compute. split; discriminate.
  - reflexivity.
Defined.

(** ** The guard of the commands *)

Lemma is_enabled_has_errors (p : Persist) (v : View) :
  is_enabled p v = true <-> is_Some (has_errors p (view_id v)).
Proof.
  unfold is_enabled, has_errors.
  destruct (errors p !! view_id v) as [errs|]; [|split; [done|by intros [? ?]]].
  destruct (decide (errs = ∅)) as [Hempty|Hne].
  - rewrite (bool_decide_eq_true_2 (errs = ∅)) by done.
    rewrite bool_decide_eq_false_2; [split; [done|by intros [? ?]]|].
    rewrite Hempty, map_size_empty. lia.
  - rewrite (bool_decide_eq_false_2 (errs = ∅)) by done.
    rewrite bool_decide_eq_true_2; [by split|].
    apply map_size_non_empty_iff in Hne. lia.
Qed.

(** X6. The command palette and the decorator agree: a command is enabled
    exactly when [error_command] lets its body run.  When it is not, the
    body is not run: the view gets the message that there are no lint errors
    and nothing else changes.  When it is, the command does what
    [goto_error] does. *)
Theorem error_guard_agrees `{Selection}
    (p : Persist) (v : View) (point : option Z) (direction : str) :
  (is_enabled p v = true <-> is_Some (has_errors p (view_id v))) /\
  (is_enabled p v = false ->
     goto_error_command p v point direction
       = (message_dialog (lit "No lint errors.") v, Return None)) /\
  (is_enabled p v = true ->
     (goto_error_command p v point direction).1 = (goto_error p v point direction).1 /\
     forall r, (goto_error p v point direction).2 = Return r ->
               (goto_error_command p v point direction).2 = Return (Some r)).
Proof.
  split; [apply is_enabled_has_errors|].
  unfold goto_error_command, error_command. split.
  - intros Hoff. destruct (has_errors p (view_id v)) as [errs|] eqn:Herrs; [|done].
    assert (is_enabled p v = true) as Hon
      by (apply is_enabled_has_errors; rewrite Herrs; by eexists).
    congruence.
  - intros Hon. apply is_enabled_has_errors in Hon as [errs ->].
    destruct (goto_error p v point direction) as [v' [r|e]]; simpl; split; try done.
    by intros r' [= ->].
Qed.

(** ** The rows of the quick panel *)

Lemma flat_map_perm_ext {A B : Type} (f g : A -> list B) (l : list A) :
  (forall x, f x ≡ₚ g x) -> flat_map f l ≡ₚ flat_map g l.
Proof.
  intros Hfg. induction l as [|x l IH]; simpl; [done|]. by rewrite Hfg, IH.
Qed.

Lemma length_flat_map_sum {A B : Type} (f : A -> list B) (l : list A) :
  length (flat_map f l) = sum_list (map (fun x => length (f x)) l).
Proof.
  induction l as [|x l IH]; simpl; [done|]. by rewrite length_app, IH.
Qed.

(** X7. The quick panel shows every diagnostic of the error map once, two
    equal messages of a line twice: its rows are a rearrangement of the
    diagnostics, as many as the error map has messages.  [error_info] has
    one entry per row, and the entry at the index of a row is the line and
    column of the diagnostic that the row shows, so that the index the panel
    hands back picks the diagnostic that was shown. *)
Theorem quick_panel_rows_complete (v : View) (errs : ErrorMap) :
  let rows := visited (map_to_list errs) in
  let all := flat_map (fun item : Z * list message => map (pair item.1) item.2)
               (map_to_list errs) in
  rows ≡ₚ all /\
  length rows = sum_list (map (fun item : Z * list message => length item.2)
                            (map_to_list errs)) /\
  length (show_all_errors v errs).1 = length rows /\
  length (show_all_errors v errs).2 = length rows /\
  (forall i label code,
     (show_all_errors v errs).2 !! i = Some (label, code) ->
     exists lineno column text,
       (lineno, (column, text)) ∈ all /\
       (show_all_errors v errs).1 !! i = Some (lineno, column) /\
       label = str_of_int (lineno + 1) ++ lit "  " ++ text /\
       code = code_line (stripped_line v lineno).1 (stripped_line v lineno).2 (column, text)).
Proof.
  intros rows all.
  assert (rows ≡ₚ all) as Hperm.
  { subst rows all. unfold visited.
    rewrite (Permutation_flat_map _ (py_sorted_perm item_lt (map_to_list errs))).
    apply flat_map_perm_ext. intros [lineno messages]. simpl.
    by rewrite py_sorted_perm. }
  split; [done|]. split.
  { rewrite Hperm. subst all. rewrite length_flat_map_sum.
    f_equal. apply map_ext. intros item. by rewrite length_map. }
  unfold show_all_errors, show_all_errors_items. simpl. fold rows.
  split; [by rewrite length_map|]. split; [by rewrite length_map|].
  intros i label code Hrow.
  change (map (option_of v) rows) with (option_of v <$> rows) in Hrow.
  change (map error_info_of rows) with (error_info_of <$> rows).
  rewrite list_lookup_fmap in Hrow. rewrite list_lookup_fmap.
  destruct (rows !! i) as [[lineno [column text]]|] eqn:Hi; [|done].
  exists lineno, column, text. split.
  { rewrite <- Hperm. by eapply list_elem_of_lookup_2. }
  split; [done|]. simpl in Hrow. unfold option_of in Hrow.
  destruct (stripped_line v lineno) as [line diff]. by injection Hrow as <- <-.
Qed.

(** X8. Truncation only touches what stands in front of the column.  For a
    column at or behind the start of the stripped line, the row is a prefix,
    the arrow, and then the stripped line from the column on, whole: the
    prefix is the line up to the column when that is at most 40 characters,
    and ["..."] with the 40 characters in front of the column otherwise, so
    that at most 43 characters stand in front of the arrow. *)
Theorem code_line_keeps_the_rest (line : str) (diff column : Z) (text : str) :
  let c := column - diff in
  0 <= c ->
  exists prefix,
    code_line line diff (column, text) = prefix ++ [arrow] ++ drop (Z.to_nat c) line /\
    (length prefix <= 43)%nat /\
    (c <= 40 -> prefix = take (Z.to_nat c) line) /\
    (40 < c -> prefix = lit "..." ++ take 40 (drop (Z.to_nat (c - 40)) line)).
Proof.
  intros c Hc. destruct (Z.le_gt_cases c 40) as [Hshort|Hlong].
  - exists (take (Z.to_nat c) line).
    rewrite (code_line_short line diff column text Hshort). fold c.
    destruct (slice_nonneg line c Hc) as [-> ->].
    split; [done|]. split; [rewrite length_take; lia|]. split; [done|lia].
  - exists (lit "..." ++ take 40 (drop (Z.to_nat (c - 40)) line)).
    rewrite (code_line_long line diff column text) by (fold c; lia). fold c.
    unfold splice_at.
    change (lit "...") with [46%N; 46%N; 46%N].
    change 43%nat with (length [46%N; 46%N; 46%N] + 40)%nat.
    rewrite take_app_add, drop_app_add, drop_drop.
    replace (Z.to_nat (c - 40) + 40)%nat with (Z.to_nat c) by lia.
    split; [done|]. split; [|split; [lia|done]].
    rewrite length_app, length_take.
    change (length [46%N; 46%N; 46%N]) with 3%nat.
    pose proof (Nat.le_min_l 40 (length (drop (Z.to_nat (c - 40)) line))). lia.
Qed.

Lemma code_line_keeps_the_rest_witness :
  let line := lit "0123456789012345678901234567890123456789abcdefghij" in
  0 <= 45 - 0 /\
  exists prefix,
    code_line line 0 (45, []) = prefix ++ [arrow] ++ drop (Z.to_nat (45 - 0)) line /\
    (length prefix <= 43)%nat /\
    (45 - 0 <= 40 -> prefix = take (Z.to_nat (45 - 0)) line) /\
    (40 < 45 - 0 -> prefix = lit "..." ++ take 40 (drop (Z.to_nat (45 - 0 - 40)) line)).
Proof.
  intros line.
  assert (0 <= 45 - 0) as Hc by lia.
  split; [exact Hc|].
  exact (code_line_keeps_the_rest line 0 45 [] Hc).
Defined.

Lemma lstrip_chars_head (strip : char -> bool) (s : str) (c : char) (rest : str) :
  lstrip_chars strip s = c :: rest -> strip c = false.
Proof.
  induction s as [|x s IH]; simpl; [done|].
  destruct (strip x) eqn:Hx; [done|]. by intros [= <- _].
Qed.

Lemma lstrip_chars_idem (strip : char -> bool) (s : str) :
  lstrip_chars strip (lstrip_chars strip s) = lstrip_chars strip s.
Proof.
  destruct (lstrip_chars strip s) as [|c rest] eqn:Hs; [done|].
  simpl. by rewrite (lstrip_chars_head strip s c rest Hs).
Qed.

Lemma rstrip_chars_last (strip : char -> bool) (s : str) (c : char) :
  last (rstrip_chars strip s) = Some c -> strip c = false.
Proof.
  unfold rstrip_chars. rewrite last_reverse.
  destruct (lstrip_chars strip (reverse s)) as [|x rest] eqn:Hs; [done|].
  simpl. intros [= <-]. by eapply lstrip_chars_head.
Qed.

(** X9. The line a row is made from is clean at both ends: it does not begin
    with white space and does not end with a line feed or carriage return,
    stripping it again changes nothing, and the count of what was stripped
    on the left is not negative and, with the length of the line, makes up
    the length of the line without its line end. *)
Theorem stripped_line_clean (v : View) (lineno : Z) :
  let line := (stripped_line v lineno).1 in
  let diff := (stripped_line v lineno).2 in
  (forall c rest, line = c :: rest -> is_space c = false) /\
  (forall c, last line = Some c -> is_newline c = false) /\
  lstrip line = line /\
  rstrip_chars is_newline line = line /\
  0 <= diff /\
  diff + Z.of_nat (length line)
    = Z.of_nat (length (rstrip_chars is_newline (full_line v lineno))) /\
  (length line <= length (full_line v lineno))%nat.
Proof.
  intros line diff. subst line diff. unfold stripped_line. simpl.
  set (r := rstrip_chars is_newline (full_line v lineno)).
  destruct (lstrip_chars_split is_space r) as (ws & Hsplit & _).
  fold (lstrip r) in Hsplit.
  assert (forall c, last (lstrip r) = Some c -> is_newline c = false) as Hlast.
  { intros c Hc. apply (rstrip_chars_last is_newline (full_line v lineno)). fold r.
    rewrite Hsplit. apply last_Some in Hc as [l' ->].
    rewrite app_assoc. apply last_snoc. }
  assert (length r <= length (full_line v lineno))%nat as Hr.
  { subst r. unfold rstrip_chars. rewrite length_reverse.
    destruct (lstrip_chars_split is_newline (reverse (full_line v lineno)))
      as (ws' & Hsplit' & _).
    apply (f_equal length) in Hsplit'. rewrite length_reverse, length_app in Hsplit'. lia. }
  apply (f_equal length) in Hsplit as Hlen. rewrite length_app in Hlen.
  split; [intros c rest; apply lstrip_chars_head|].
  split; [done|]. split; [apply lstrip_chars_idem|]. split; [|lia].
  unfold rstrip_chars.
  destruct (reverse (lstrip r)) as [|c rest] eqn:Hrev.
  - apply (f_equal reverse) in Hrev. rewrite reverse_involutive in Hrev. by rewrite Hrev.
  - assert (last (lstrip r) = Some c) as Hc.
    { apply (f_equal reverse) in Hrev. rewrite reverse_involutive, reverse_cons in Hrev.
      rewrite Hrev. apply last_snoc. }
    simpl. rewrite (Hlast c Hc). rewrite <- Hrev. apply reverse_involutive.
Qed.

(** ** Picking a row of the quick panel *)

Section SelectError.
Context `{Selection} (text_point : Z -> Z -> Z).

Lemma cleared_selection (v : View) :
  sel (ensure_selection (set_sel [] v)) = [Region.make 0 0].
Proof. by rewrite ensure_selection_sel. Qed.

Lemma select_error_goto (p : Persist) (v : View) (error_info : list (Z * Z))
    (index row col : Z) :
  index <> -1 ->
  py_index error_info index = Return (row, col) ->
  select_error text_point p v error_info index
  = match goto_error p (set_sel [] v) (Some (text_point row col)) (lit "next") with
    | (v', Return _) => (v', Return tt)
    | (v', Raise e) => (v', Raise e)
    end.
Proof.
  intros Hindex Hinfo. unfold select_error.
  rewrite bool_decide_eq_true_2 by done. by rewrite Hinfo.
Qed.

End SelectError.

(** X10. Picking a row of the quick panel.  A cancelled pick (index -1)
    changes nothing.  Any other pick clears the selection before it
    searches, so the search runs from the point of the picked entry with the
    selection counting as a single empty range: when a region that is not
    empty begins at that point, a region that begins there is selected.  A
    pick either selects a mark or the begin of one of the regions, or, when
    there is nowhere to go, leaves the single empty range at offset 0 in the
    selection: the selection the user had is not put back.  An index outside
    [error_info] raises, with the selection already cleared. *)
Theorem select_error_outcome `{Selection} (text_point : Z -> Z -> Z)
    (p : Persist) (v : View) (error_info : list (Z * Z)) (index : Z) :
  (index = -1 -> select_error text_point p v error_info index = (v, Return tt)) /\
  (index <> -1 -> py_index error_info index = Raise IndexError ->
     select_error text_point p v error_info index = (set_sel [] v, Raise IndexError)) /\
  (forall row col,
     index <> -1 -> py_index error_info index = Return (row, col) ->
     let pt := text_point row col in
     (forall x, x ∈ goto_regions v -> Region.begin x = pt -> non_empty x ->
        exists r, r ∈ goto_regions v /\ Region.begin r = pt /\
                  select_error text_point p v error_info index
                    = (select_lint_region v r, Return tt)) /\
     (forall v', select_error text_point p v error_info index = (v', Return tt) ->
        (exists r, r ∈ goto_regions v /\ v' = select_lint_region v r) \/
        (v' = report_no_more [Region.make 0 0] (lit "next") v /\
         sel v' = [Region.make 0 0]))).
Proof.
  split; [|split].
  - intros ->. done.
  - intros Hindex Hinfo. unfold select_error.
    rewrite bool_decide_eq_true_2 by done. by rewrite Hinfo.
  - intros row col Hindex Hinfo pt.
    rewrite (select_error_goto text_point p v error_info index row col Hindex Hinfo).
    fold pt.
    pose proof (cleared_selection v) as Hs.
    assert (anchor_of (Some pt) (lit "next") (sel (ensure_selection (set_sel [] v))) = pt)
      as Hanchor by (unfold anchor_of; by rewrite bool_decide_eq_true_2).
    split.
    + intros x Hx Hbegin Hne.
      assert (next_eligible pt [Region.make 0 0] x) as Hel.
      { left. split; [done|]. split; [|done]. by exists (Region.make 0 0). }
      apply next_match_eligible in Hel.
      destruct (find_is_Some _ _ _ Hx Hel) as [r Hr].
      destruct (find_first _ _ _ Hr) as (pre & post & Hsplit & Hr_ok & Hpre).
      assert (scan (lit "next") pt (empty_selection_of [Region.make 0 0])
                (goto_regions (set_sel [] v)) = Some r) as Hscan.
      { unfold scan, is_next. by rewrite bool_decide_eq_true_2. }
      exists r.
      assert (r ∈ goto_regions v) as Hin
        by (rewrite Hsplit; apply elem_of_app; right; left).
      split; [done|]. split.
      * apply next_match_eligible in Hr_ok as [(Heq & _)|Hlt]; [done|].
        pose proof (goto_regions_ordered v) as Hord. rewrite Hsplit in Hord.
        apply ordered_split in Hord as [_ Hafter]. rewrite Forall_forall in Hafter.
        rewrite Hsplit in Hx. apply elem_of_app in Hx as [Hx|Hx].
        { rewrite Forall_forall in Hpre. rewrite (Hpre x Hx) in Hel. discriminate. }
        apply elem_of_cons in Hx as [->|Hx]; [lia|].
        specialize (Hafter x Hx). unfold before in Hafter.
        pose proof (begin_le_end r). lia.
      * rewrite (goto_error_found p (set_sel [] v) (Some pt) (lit "next") r); [done|].
        cbv zeta. by rewrite Hanchor, Hs.
    + intros v' Hpick.
      pose proof (goto_error_cases p (set_sel [] v) (Some pt) (lit "next")) as Hcases.
      cbv zeta in Hcases. rewrite Hs in Hcases.
      destruct Hcases as [(r & Hr & _ & Heq)|[[_ Heq]|[_ Heq]]];
        rewrite Heq in Hpick; [| |done].
      * left. exists r. split; [done|]. by injection Hpick as <-.
      * right. injection Hpick as <-. split; [done|].
        unfold report_no_more, sel_add_all. simpl. by rewrite sel_add_nil.
Qed.

(** ** Choosing a setting *)

Lemma py_index_lookup {A : Type} (l : list A) (n : nat) (x : A) :
  l !! n = Some x -> py_index l (Z.of_nat n) = Return x.
Proof.
  intros Hx. unfold py_index.
  destruct (Z.ltb_spec (Z.of_nat n) 0) as [|_]; [lia|].
  destruct (Z.ltb_spec (Z.of_nat n) 0) as [|_]; [lia|].
  by rewrite Nat2Z.id, Hx.
Qed.

Section ChooseFacts.
Context (lower : str -> str) (key : str) (old_setting : option str).

Lemma find_setting_found (setting : str) (pre post : list setting_item)
    (e : setting_item) (n : str) : forall i,
  unlisted lower setting pre -> item_name e = Done n -> lower n = setting ->
  find_setting lower setting i (pre ++ e :: post) = Done (Some (i + Z.of_nat (length pre))).
Proof.
  induction pre as [|s pre IH]; intros i Hpre He Hn; simpl.
  - rewrite He, bool_decide_eq_true_2 by done. do 2 f_equal. lia.
  - apply Forall_cons in Hpre as [(m & -> & Hm) Hpre].
    rewrite bool_decide_eq_false_2 by done. rewrite IH by done. do 2 f_equal. lia.
Qed.

Lemma find_setting_unlisted (setting : str) (l : list setting_item) : forall i,
  unlisted lower setting l -> find_setting lower setting i l = Done None.
Proof.
  induction l as [|s l IH]; intros i Hl; simpl; [done|].
  apply Forall_cons in Hl as [(m & -> & Hm) Hl].
  rewrite bool_decide_eq_false_2 by done. by apply IH.
Qed.

End ChooseFacts.

(** X11. Choosing a setting by value acts on the first item whose name is
    the value up to case, and writes the value in lower case, unless that is
    the setting already, in which case nothing is done.  A value that no
    item goes by does not fail: the first item is taken, and its name is
    written in lower case; only without any item does the command raise.
    Without a value the command changes nothing: it shows the items with the
    one of the current setting preselected, the first item when the current
    setting is not among them, and it raises when the setting has no
    value. *)
Theorem choose_first_match (lower : str -> str) (key : str) (old_setting : option str)
    (settings : list setting_item) (x : str) :
  (forall pre e post n,
     settings = pre ++ e :: post ->
     unlisted lower (lower x) pre -> item_name e = Done n -> lower n = lower x ->
     choose lower key old_setting settings (Some x)
       = Done (written key old_setting (lower x))) /\
  (unlisted lower (lower x) settings ->
     match settings with
     | [] => choose lower key old_setting settings (Some x) = Failed SettingIndexError
     | first :: _ =>
         forall n, item_name first = Done n ->
           choose lower key old_setting settings (Some x)
             = Done (written key old_setting (lower n))
     end) /\
  (old_setting = Some x ->
     (forall pre e post n,
        settings = pre ++ e :: post ->
        unlisted lower (lower x) pre -> item_name e = Done n -> lower n = lower x ->
        choose lower key old_setting settings None
          = Done [ShowQuickPanel settings (Z.of_nat (length pre))]) /\
     (unlisted lower (lower x) settings ->
        choose lower key old_setting settings None = Done [ShowQuickPanel settings 0])) /\
  (old_setting = None ->
     choose lower key old_setting settings None = Failed SettingAttributeError).
Proof.
  split; [|split; [|split]].
  - intros pre e post n Hsplit Hpre He Hn. unfold choose.
    rewrite Hsplit at 1. rewrite (find_setting_found lower _ pre post e n 0 Hpre He Hn).
    rewrite Z.add_0_l. change (default 0 (Some (Z.of_nat (length pre))))
      with (Z.of_nat (length pre)). cbv beta iota zeta. unfold set_setting.
    rewrite bool_decide_eq_false_2 by lia.
    rewrite (py_index_lookup settings (length pre) e)
      by (rewrite Hsplit; apply list_lookup_middle; done).
    rewrite He, Hn. unfold written. by destruct (bool_decide _).
  - intros Hnone. unfold choose.
    rewrite (find_setting_unlisted lower _ settings 0 Hnone). simpl.
    destruct settings as [|first rest]; [done|].
    intros n Hfirst. unfold set_setting. simpl. rewrite Hfirst.
    unfold written. by destruct (bool_decide _).
  - intros ->. split.
    + intros pre e post n Hsplit Hpre He Hn. unfold choose.
      rewrite Hsplit at 1. rewrite (find_setting_found lower _ pre post e n 0 Hpre He Hn).
      by rewrite Z.add_0_l.
    + intros Hnone. unfold choose.
      by rewrite (find_setting_unlisted lower _ settings 0 Hnone).
  - intros ->. done.
Qed.

Example choose_unknown_value :
  choose (fun s => s) (lit "lint_mode") (Some (lit "manual"))
    [Items [lit "background"; lit "Lint whenever the text changes"];
     Items [lit "manual"; lit "Lint only when asked"]]
    (Some (lit "never"))
  = Done [ChangeSetting (lit "lint_mode") (lit "background");
          SettingWasChanged (lit "background"); UpdateUserSettings].
Proof. reflexivity. Qed.

(** ** The report *)

Lemma fold_left_append {A : Type} (f : A -> str) (l : list A) (out : str) :
  fold_left (fun out e => out ++ f e) l out = out ++ concat (map f l).
Proof.
  revert out. induction l as [|e l IH]; intros out; simpl.
  - by rewrite app_nil_r.
  - by rewrite IH, <- app_assoc.
Qed.

Lemma filter_none {A : Type} (P : A -> Prop) `{forall x, Decision (P x)} (l : list A) :
  (forall x, x ∈ l -> ~ P x) -> filter P l = [].
Proof.
  intros Hl. destruct (filter P l) as [|y rest] eqn:Hfilter; [done|].
  assert (y ∈ filter P l) as Hy by (rewrite Hfilter; left).
  apply list_elem_of_filter in Hy as [Hy Hin]. by destruct (Hl y Hin).
Qed.

Lemma reported_line_elem (item : Z * list message) (e : Z * message) :
  e ∈ reported_line item <-> e.1 = item.1 /\ e.2 ∈ item.2.
Proof.
  destruct item as [line errors], e as [l m]. simpl.
  rewrite list_elem_of_fmap. split.
  - by intros (m' & [= -> ->] & Hm).
  - intros [-> Hm]. by exists m.
Qed.

Lemma reported_line_filter (k : Z) (item : Z * list message) :
  filter (fun e : Z * message => e.1 = k) (reported_line item)
  = if decide (item.1 = k) then map (pair k) item.2 else [].
Proof.
  destruct item as [line errors]. simpl.
  induction errors as [|m errors IH]; simpl.
  - by destruct (decide (line = k)).
  - rewrite filter_cons, IH. simpl. by destruct (decide (line = k)) as [->|].
Qed.

Lemma reported_filter (k : Z) (messages : list message) (items : list (Z * list message)) :
  NoDup items.*1 -> (k, messages) ∈ items ->
  filter (fun e : Z * message => e.1 = k) (flat_map reported_line items)
  = map (pair k) messages.
Proof.
  induction items as [|item items IH]; intros Hnodup Hin; [by apply elem_of_nil in Hin|].
  rewrite fmap_cons in Hnodup. apply NoDup_cons in Hnodup as [Hfresh Hnodup].
  simpl. rewrite filter_app, reported_line_filter.
  apply elem_of_cons in Hin as [<-|Hin]; simpl.
  - destruct (decide (k = k)) as [_|]; [|done].
    assert (filter (fun e : Z * message => e.1 = k) (flat_map reported_line items) = [])
      as ->; [|by rewrite app_nil_r].
    apply filter_none. intros e He Hk.
    apply list_elem_of_In, in_flat_map in He as (j & Hj & He).
    apply list_elem_of_In in Hj, He. apply reported_line_elem in He as [He _].
    apply Hfresh. simpl. rewrite <- Hk, He. exact (list_elem_of_fmap_2 fst items j Hj).
  - destruct (decide (item.1 = k)) as [Heq|_]; [|by apply IH].
    exfalso. apply Hfresh. rewrite Heq.
    by apply (list_elem_of_fmap_2 fst items (k, messages)).
Qed.

Lemma reported_sorted (items : list (Z * list message)) :
  StronglySorted (fun i1 i2 => i1.1 < i2.1) items ->
  StronglySorted (fun e1 e2 : Z * message => e1.1 <= e2.1) (flat_map reported_line items).
Proof.
  induction 1 as [|i l Hl IH Hi]; simpl; [constructor|].
  apply StronglySorted_app_2; [| |done].
  - intros e1 e2 He1 He2. apply reported_line_elem in He1 as [He1 _].
    apply list_elem_of_In, in_flat_map in He2 as (j & Hj & He2).
    apply list_elem_of_In in Hj, He2. apply reported_line_elem in He2 as [He2 _].
    rewrite Forall_forall in Hi. specialize (Hi j Hj). lia.
  - destruct i as [line errors]. simpl. clear.
    induction errors as [|m errors IH]; simpl; constructor; [done|].
    apply Forall_forall. intros e He. apply list_elem_of_fmap in He as (m' & -> & _).
    simpl. lia.
Qed.

Lemma insert_fold (linters : list Linter) (out : str) :
  fold_left
    (fun out linter =>
       if bool_decide (linter_errors linter = ∅) then out
       else fold_left (fun out e => out ++ report_line e)
              (reported (map_to_list (linter_errors linter))) out)
    linters out
  = out ++ concat (map report_line
             (flat_map (fun l => reported (map_to_list (linter_errors l))) linters)).
Proof.
  revert out. induction linters as [|l linters IH]; intros out.
  - simpl. by rewrite app_nil_r.
  - cbn [fold_left flat_map]. rewrite IH, map_app, concat_app, app_assoc. f_equal.
    case_bool_decide as Hempty.
    + rewrite Hempty, map_to_list_empty. simpl. by rewrite app_nil_r.
    + apply fold_left_append.
Qed.

(** X12. The text that the report adds for a view.  Nothing is added
    exactly when no linter of the view has errors.  Otherwise the text is a
    blank line and the base name of the first linter's file, ['untitled']
    when it has none, followed by one line per message: linter after linter,
    the lines of a linter in ascending order of line number whatever order
    its error map hands them out in, and the messages of one line in the
    order they are stored in, not sorted by column as in the quick panel. *)
Theorem report_text_order (basename : str -> str) (linters : list Linter) :
  (insert_text basename linters = None <->
   Forall (fun l => linter_errors l = ∅) linters) /\
  (forall out, insert_text basename linters = Some out ->
     exists first rest name,
       linters = first :: rest /\
       (name = default [] (linter_filename first) \/
        (name = lit "untitled" /\ default [] (linter_filename first) = [])) /\
       name <> [] /\
       out = [10%N] ++ basename name ++ lit ":" ++ [10%N]
             ++ concat (map report_line
                  (flat_map (fun l => reported (map_to_list (linter_errors l))) linters))) /\
  (forall l, l ∈ linters ->
     let entries := reported (map_to_list (linter_errors l)) in
     StronglySorted (fun e1 e2 : Z * message => e1.1 <= e2.1) entries /\
     (forall k messages, linter_errors l !! k = Some messages ->
        filter (fun e : Z * message => e.1 = k) entries = map (pair k) messages) /\
     (forall items, items ≡ₚ map_to_list (linter_errors l) -> reported items = entries)).
Proof.
  split; [|split].
  - unfold insert_text.
    destruct (existsb _ linters) eqn:Hany.
    + apply existsb_exists in Hany as (l & Hl & Hne).
      apply negb_true_iff, bool_decide_eq_false in Hne.
      destruct linters as [|first rest]; [by apply in_nil in Hl|].
      split; [done|]. intros Hall. rewrite Forall_forall in Hall.
      destruct Hne. by apply Hall, list_elem_of_In.
    + split; [|done]. intros _. apply Forall_forall. intros l Hl.
      apply list_elem_of_In in Hl.
      destruct (decide (linter_errors l = ∅)) as [|Hne]; [done|].
      assert (existsb (fun l => negb (bool_decide (linter_errors l = ∅))) linters = true)
        as Hyes; [|congruence].
      apply existsb_exists. exists l. split; [done|].
      by apply negb_true_iff, bool_decide_eq_false.
  - intros out. unfold insert_text.
    destruct (existsb _ linters); [|done].
    destruct linters as [|first rest] eqn:Hlinters; [done|].
    intros Hout. apply (inj Some) in Hout. rewrite <- Hout. clear Hout.
    set (name := match linter_filename first with
                 | Some f => if bool_decide (f = []) then lit "untitled" else f
                 | None => lit "untitled"
                 end).
    exists first, rest, name. split; [done|]. split; [|split].
    + subst name. destruct (linter_filename first) as [f|]; simpl; [|by right].
      case_bool_decide; [by right|by left].
    + subst name. destruct (linter_filename first) as [f|]; [|done].
      by case_bool_decide.
    + rewrite insert_fold. fold name. by rewrite <- !app_assoc.
  - intros l _ entries. subst entries. unfold reported. split; [|split].
    + apply reported_sorted, sorted_items_lines.
      * rewrite py_sorted_perm. apply NoDup_fst_map_to_list.
      * apply py_sorted_sorted.
        -- apply st_asym, item_lt_strict_total.
        -- apply st_not_after_trans, item_lt_strict_total.
    + intros k messages Hk. apply reported_filter.
      * rewrite py_sorted_perm. apply NoDup_fst_map_to_list.
      * rewrite py_sorted_perm. by apply elem_of_map_to_list.
    + intros items Hperm.
      by rewrite (py_sorted_unique item_lt item_lt_strict_total _ _ Hperm).
Qed.

(** ** Repeating the command *)

(** X13. Calling the command again from the selection it left.  The first
    call leaves a single range [m] within the region [r] it returned; a
    second call in the same direction, from that selection, returns a region
    that lies no earlier than [r] going forward (no later going backward),
    and, when [m] is not empty, strictly later (earlier): the command moves
    on.  The one exception is the wrap: nothing qualifies, [wrap_find] is
    on, and the region is the first (last) one. *)
Theorem goto_twice_moves_on `{Selection}
    (p : Persist) (v v1 v2 : View) (point : option Z) (direction : str) (r r' : Region) :
  goto_error p v point direction = (v1, Return (Some r)) ->
  goto_error p v1 None direction = (v2, Return (Some r')) ->
  exists m,
    sel v1 = [m] /\ within r m /\
    ((if bool_decide (direction = lit "next")
      then Region.begin r <= Region.begin r' /\
           (non_empty m -> Region.begin r < Region.begin r')
      else Region.end_ r' <= Region.end_ r /\
           (non_empty m -> Region.end_ r' < Region.end_ r))
     \/
     (get_wrap_find p = true /\
      (forall x, x ∈ goto_regions v ->
         ~ eligible direction (anchor_of None direction [m]) [m] x) /\
      (if bool_decide (direction = lit "next") then head (goto_regions v)
       else last (goto_regions v)) = Some r')).
Proof.
  intros Hfirst Hsecond.
  destruct (goto_error_cases p v point direction)
    as [(r0 & _ & _ & Heq)|[[_ Heq]|[_ Heq]]]; rewrite Heq in Hfirst; [|done..].
  injection Hfirst as <- <-.
  destruct (select_lint_region_within v r0) as (m & Hsel & Hwithin & _).
  exists m. split; [done|]. split; [done|].
  pose proof (goto_error_cases p (select_lint_region v r0) None direction) as Hcases.
  cbv zeta in Hcases. rewrite ensure_selection_sel, Hsel in Hcases.
  change (goto_regions (select_lint_region v r0)) with (goto_regions v) in Hcases.
  destruct Hcases as [(r1 & _ & Hwhy & Heq2)|[[_ Heq2]|[_ Heq2]]];
    rewrite Heq2 in Hsecond; [|done..].
  injection Hsecond as _ <-.
  destruct Hwhy as [Hel|Hwrap]; [left|by right].
  unfold within in Hwithin.
  unfold eligible, anchor_of, anchor_next, anchor_previous,
    next_eligible, previous_eligible, single_empty, non_empty in *.
  destruct (bool_decide (direction = lit "next")); simpl in Hel.
  - destruct Hel as [(Heq' & (c & [= <-] & Hempty) & _)|Hlt].
    + split; [lia|]. intros Hne. by destruct Hne.
    + split; [lia|]. intros _. lia.
  - destruct Hel as [(Heq' & (c & [= <-] & Hempty) & _)|Hlt].
    + split; [lia|]. intros Hne. by destruct Hne.
    + split; [lia|]. intros _. lia.
Qed.

Lemma goto_twice_moves_on_witness :
  let v := demo_view [Region.make 4 4] in
  let v1 := select_lint_region (H := merging_selection) v (Region.make 10 15) in
  let v2 := select_lint_region (H := merging_selection) v1 (Region.make 20 22) in
  goto_error (H := merging_selection) (demo_persist true) v None (lit "next")
    = (v1, Return (Some (Region.make 10 15))) /\
  goto_error (H := merging_selection) (demo_persist true) v1 None (lit "next")
    = (v2, Return (Some (Region.make 20 22))) /\
  exists m, sel v1 = [m] /\ within (Region.make 10 15) m.
Proof.
  intros v v1 v2.
  assert (goto_error (H := merging_selection) (demo_persist true) v None (lit "next")
            = (v1, Return (Some (Region.make 10 15)))) as Hfirst by reflexivity.
  assert (goto_error (H := merging_selection) (demo_persist true) v1 None (lit "next")
            = (v2, Return (Some (Region.make 20 22)))) as Hsecond by reflexivity.
  split; [exact Hfirst|]. split; [exact Hsecond|].
  destruct (goto_twice_moves_on (H := merging_selection) (demo_persist true) v v1 v2 None
              (lit "next") _ _ Hfirst Hsecond) as (m & Hsel & Hwithin & _).
  exists m. by split.
Defined.
